(** * feuermurmel.events: event dispatch, transactions and task lifecycle

    A shallow embedding of [src/feuermurmel/events.py].  The library's
    methods are Rocq functions on an explicit object store; client code
    (event bodies, transaction bodies, subscribed callables) is a small
    command language that can only go through the library's public
    operations.  Every Python call made into a bound event, a bound
    transaction, [stop] or a client function costs one unit of fuel.
    Events and transaction methods take one positional argument; the
    store also carries a trace of the bodies entered, the closures handed
    to [_run_within_transaction] and the subscribers called, which the
    code does not keep and which the statements about order refer to. *)

From Stdlib Require Import ZArith.
From stdpp Require Import list relations.

(** ** Data model *)

(** Object identity of a task instance: its index in the store. *)
Abbreviation tid := nat (only parsing).

(** The events a task can carry: the two declared by the library and the
    ones a subclass declares with [@event]. *)
Inductive ename :=
| OnFailure
| OnSuccess
| Declared (name : nat).

(** Callables that can be subscribed to an event: a client function
    (compared by identity, its number) or the bound event of a task. *)
Inductive handler :=
| HFun (f : nat)
| HBound (t : tid) (e : ename).

(** Exceptions.  [EventHandlerException] and [NoFailureHandlerException]
    derive from [BaseException]; everything else the library raises
    derives from [Exception]. *)
Inductive pyexc :=
| PyException (tag : nat)
| PyBaseException (tag : nat)
| StopOnNonRunning
| AttributeError
| ValueError
| AssertionError
| NoFailureHandlerException
| EventHandlerException (i : handler) (cause : pyexc).

(** [isinstance(x, Exception)], the test made by [except Exception]. *)
Definition is_Exception (x : pyexc) : bool :=
  match x with
  | PyException _ | StopOnNonRunning | AttributeError | ValueError
  | AssertionError => true
  | PyBaseException _ | NoFailureHandlerException
  | EventHandlerException _ _ => false
  end.

Inductive val :=
| VNone
| VInt (z : Z)
| VExc (x : pyexc).

#[global] Instance ename_eq_dec : EqDecision ename.
Proof. solve_decision. Defined.
#[global] Instance handler_eq_dec : EqDecision handler.
Proof. solve_decision. Defined.
#[global] Instance pyexc_eq_dec : EqDecision pyexc.
Proof. solve_decision. Defined.
#[global] Instance val_eq_dec : EqDecision val.
Proof. solve_decision. Defined.

(** Client code. *)
Inductive cmd :=
| Subscribe (t : tid) (e : ename) (i : handler)
| Unsubscribe (t : tid) (e : ename) (i : handler)
| Fire (t : tid) (e : ename) (a : val)
| Invoke (t : tid) (m : nat) (a : val)
| Stop (t : tid)
| StopTask (o : option tid)
| Adopt (p c : tid) (failure_handler : option handler)
| Raise (x : pyexc)
| Mark (m : nat).

(** What a class statement declares: whether it derives from [Future],
    its [@event] methods and its [@transaction] methods.  A body receives
    [self] and the call's argument.  A class keeps the [_cleanup] of
    [Task], which does nothing: the programs described are those that do
    not override this hook. *)
Record class_decl := {
  is_future : bool;
  events : nat → option (tid → val → list cmd);
  transactions : nat → option (tid → val → list cmd)
}.

Definition Task : class_decl :=
  {| is_future := false; events := λ _, None; transactions := λ _, None |}.

Definition Future : class_decl :=
  {| is_future := true; events := λ _, None; transactions := λ _, None |}.

(** The [do_call] closure made by a fired event captures the bound event
    (owner and name) and the arguments. *)
Record closure := {
  cl_owner : tid;
  cl_event : ename;
  cl_arg : val
}.

(** An element of [_event_signal_queue].  [serial] stands for the
    identity of the closure object: it is drawn from a counter when the
    closure is handed to [_run_within_transaction]. *)
Record queued := {
  serial : nat;
  thunk : closure
}.

Record task := {
  cls : nat;
  _running : bool;
  _event_signal_queue : option (list queued);
  _subscribers : ename → list handler;
  _exception : val;
  _adopted_tasks : list tid;
  _result : val;
  _succeeded : bool
}.

(** Observable trace, in chronological order. *)
Inductive obs :=
| Body (t : tid) (e : ename) (a : val)
| Registered (c : queued)
| Notify (c : queued) (i : handler)
| Marked (m : nat).

Record state := {
  tasks : list task;
  log : list obs;
  next_id : nat
}.

Inductive outcome :=
| Ok (s : state)
| Raised (x : pyexc) (s : state)
| Timeout
| Dangling.

(** The entry points that cost fuel. *)
Inductive call :=
| CallEvent (t : tid) (e : ename) (a : val)
| CallTransaction (t : tid) (m : nat) (a : val)
| CallStop (t : tid)
| CallFunction (f : nat) (a : val).

(** ** Field updates *)

Definition set_running (b : bool) (o : task) : task :=
  {| cls := cls o; _running := b;
     _event_signal_queue := _event_signal_queue o;
     _subscribers := _subscribers o; _exception := _exception o;
     _adopted_tasks := _adopted_tasks o; _result := _result o;
     _succeeded := _succeeded o |}.

Definition set_queue (q : option (list queued)) (o : task) : task :=
  {| cls := cls o; _running := _running o;
     _event_signal_queue := q;
     _subscribers := _subscribers o; _exception := _exception o;
     _adopted_tasks := _adopted_tasks o; _result := _result o;
     _succeeded := _succeeded o |}.

Definition set_subscribers (e : ename) (l : list handler) (o : task) : task :=
  {| cls := cls o; _running := _running o;
     _event_signal_queue := _event_signal_queue o;
     _subscribers := λ e', if decide (e' = e) then l else _subscribers o e';
     _exception := _exception o;
     _adopted_tasks := _adopted_tasks o; _result := _result o;
     _succeeded := _succeeded o |}.

Definition set_exception (x : val) (o : task) : task :=
  {| cls := cls o; _running := _running o;
     _event_signal_queue := _event_signal_queue o;
     _subscribers := _subscribers o; _exception := x;
     _adopted_tasks := _adopted_tasks o; _result := _result o;
     _succeeded := _succeeded o |}.

Definition set_adopted (l : list tid) (o : task) : task :=
  {| cls := cls o; _running := _running o;
     _event_signal_queue := _event_signal_queue o;
     _subscribers := _subscribers o; _exception := _exception o;
     _adopted_tasks := l; _result := _result o;
     _succeeded := _succeeded o |}.

Definition set_success (r : val) (o : task) : task :=
  {| cls := cls o; _running := _running o;
     _event_signal_queue := _event_signal_queue o;
     _subscribers := _subscribers o; _exception := _exception o;
     _adopted_tasks := _adopted_tasks o; _result := r;
     _succeeded := true |}.

Definition update (t : tid) (f : task → task) (s : state) : state :=
  {| tasks := alter f t (tasks s); log := log s; next_id := next_id s |}.

Definition emit (x : obs) (s : state) : state :=
  {| tasks := tasks s; log := log s ++ [x]; next_id := next_id s |}.

Definition with_task (t : tid) (s : state) (k : task → outcome) : outcome :=
  match tasks s !! t with
  | Some o => k o
  | None => Dangling
  end.

(** The list currently bound to [t._event_signal_queue]. *)
Definition queue_of (t : tid) (s : state) : option (list queued) :=
  tasks s !! t ≫= _event_signal_queue.

(** A [for] loop over a list that was fixed before the loop started. *)
Fixpoint for_each {A} (body : A → state → outcome) (l : list A) (s : state)
  : outcome :=
  match l with
  | [] => Ok s
  | x :: l' =>
      match body x s with
      | Ok s' => for_each body l' s'
      | r => r
      end
  end.

(** [list.remove(x)]: drops the first element equal to [x]. *)
Fixpoint remove_first (x : handler) (l : list handler) : option (list handler) :=
  match l with
  | [] => None
  | y :: l' =>
      if decide (y = x) then Some l'
      else cons y <$> remove_first x l'
  end.

(** [queue.append(fn)] on the list bound to [self._event_signal_queue];
    the closure receives its identity here. *)
Definition register (self : tid) (fn : closure) (s : state) : state :=
  let c := {| serial := next_id s; thunk := fn |} in
  {| tasks := alter (λ o, set_queue ((λ q, q ++ [c]) <$> _event_signal_queue o) o)
                    self (tasks s);
     log := log s ++ [Registered c];
     next_id := S (next_id s) |}.

(** ** The library *)

Section Library.

(** The program: its classes and its client functions. *)
Context (classes : nat → class_decl) (functions : nat → val → list cmd).

Definition has_event (d : class_decl) (e : ename) : bool :=
  match e with
  | OnFailure => true
  | OnSuccess => is_future d
  | Declared n => bool_decide (is_Some (events d n))
  end.

Section Step.

(** The interpreter with one unit of fuel less. *)
Variable rec : call → state → outcome.

(** The call of a subscribed callable with the event's arguments. *)
Definition call_handler (i : handler) (a : val) (s : state) : outcome :=
  match i with
  | HFun f => rec (CallFunction f a) s
  | HBound t e => rec (CallEvent t e a) s
  end.

(** One turn of the loop of [do_call]: the [try] statement. *)
Definition notify (c : queued) (i : handler) (s : state) : outcome :=
  match call_handler i (cl_arg (thunk c)) (emit (Notify c i) s) with
  | Raised x s' =>
      if is_Exception x then Raised (EventHandlerException i x) s'
      else Raised x s'
  | r => r
  end.

(** [do_call], the closure of [_Event.Bound.__call__]. *)
Definition do_call (c : queued) (s : state) : outcome :=
  with_task (cl_owner (thunk c)) s (λ o,
    for_each (notify c) (_subscribers o (cl_event (thunk c))) s).

(** [BasicTask._transaction_context], entered by a [with] statement
    whose block is [block]. *)
Definition _transaction_context (self : tid) (block : state → outcome)
    (s : state) : outcome :=
  with_task self s (λ o,
    match _event_signal_queue o with
    | None =>
        match block (update self (set_queue (Some [])) s) with
        | Ok s1 =>
            for_each do_call (default [] (queue_of self s1))
                     (update self (set_queue None) s1)
        | Raised x s1 => Raised x (update self (set_queue None) s1)
        | r => r
        end
    | Some _ => block s
    end).

(** [BasicTask._run_within_transaction]. *)
Definition _run_within_transaction (self : tid) (fn : closure)
    (s : state) : outcome :=
  _transaction_context self (λ s', Ok (register self fn s')) s.

(** [stop_task]. *)
Definition stop_task (event_source : option tid) (s : state) : outcome :=
  match event_source with
  | None => Ok s
  | Some t =>
      with_task t s (λ o,
        if _running o then rec (CallStop t) s else Ok s)
  end.

(** [Task.stop]; [_cleanup] is the empty method of [Task]. *)
Definition stop (self : tid) (s : state) : outcome :=
  with_task self s (λ o,
    if negb (_running o) then Raised StopOnNonRunning s
    else
      for_each (λ i, stop_task (Some i)) (_adopted_tasks o)
               (update self (set_running false) s)).

(** [_Event.Bound.__iadd__]. *)
Definition __iadd__ (t : tid) (e : ename) (i : handler) (s : state)
  : outcome :=
  with_task t s (λ o,
    if has_event (classes (cls o)) e then
      Ok (update t (λ o, set_subscribers e (_subscribers o e ++ [i]) o) s)
    else Raised AttributeError s).

(** [_Event.Bound.__isub__]. *)
Definition __isub__ (t : tid) (e : ename) (i : handler) (s : state)
  : outcome :=
  with_task t s (λ o,
    if has_event (classes (cls o)) e then
      match remove_first i (_subscribers o e) with
      | Some l => Ok (update t (set_subscribers e l) s)
      | None => Raised ValueError s
      end
    else Raised AttributeError s).

(** [Task._adopt_task]. *)
Definition _adopt_task (self task : tid) (failure_handler : option handler)
    (s : state) : outcome :=
  with_task self s (λ o,
    let failure_handler :=
      default (HBound self OnFailure) failure_handler in
    __iadd__ task OnFailure failure_handler
      (update self (λ o, set_adopted (_adopted_tasks o ++ [task]) o) s)).

Definition exec_cmd (c : cmd) (s : state) : outcome :=
  match c with
  | Subscribe t e i => __iadd__ t e i s
  | Unsubscribe t e i => __isub__ t e i s
  | Fire t e a => rec (CallEvent t e a) s
  | Invoke t m a => rec (CallTransaction t m a) s
  | Stop t => rec (CallStop t) s
  | StopTask o => stop_task o s
  | Adopt p c fh => _adopt_task p c fh s
  | Raise x => Raised x s
  | Mark m => Ok (emit (Marked m) s)
  end.

(** The method decorated as [Task.on_failure]. *)
Definition on_failure (self : tid) (exception : val) (s : state)
  : outcome :=
  with_task self s (λ o,
    if bool_decide (_subscribers o OnFailure = []) then
      Raised NoFailureHandlerException s
    else
      rec (CallStop self) (update self (set_exception exception) s)).

(** The method decorated as [Future.on_success]. *)
Definition on_success (self : tid) (result : val) (s : state) : outcome :=
  rec (CallStop self) (update self (set_success result) s).

(** [_Bindable.Bound._call_method] of a bound event. *)
Definition _call_method (owner : tid) (e : ename) (a : val) (s : state)
  : outcome :=
  with_task owner s (λ o,
    match e with
    | OnFailure => on_failure owner a s
    | OnSuccess => on_success owner a s
    | Declared n =>
        match events (classes (cls o)) n with
        | Some body => for_each exec_cmd (body owner a) s
        | None => Raised AttributeError s
        end
    end).

(** [_Event.Bound.__call__]. *)
Definition Event_call (owner : tid) (e : ename) (a : val) (s : state)
  : outcome :=
  with_task owner s (λ o,
    if has_event (classes (cls o)) e then
      if _running o then
        match _call_method owner e a (emit (Body owner e a) s) with
        | Ok s1 =>
            _run_within_transaction owner
              {| cl_owner := owner; cl_event := e; cl_arg := a |} s1
        | r => r
        end
      else Ok s
    else Raised AttributeError s).

(** [_Transaction.Bound.__call__]. *)
Definition Transaction_call (owner : tid) (m : nat) (a : val)
    (s : state) : outcome :=
  with_task owner s (λ o,
    match transactions (classes (cls o)) m with
    | Some body =>
        _transaction_context owner (for_each exec_cmd (body owner a)) s
    | None => Raised AttributeError s
    end).

Definition step (c : call) (s : state) : outcome :=
  match c with
  | CallEvent t e a => Event_call t e a s
  | CallTransaction t m a => Transaction_call t m a s
  | CallStop t => stop t s
  | CallFunction f a => for_each exec_cmd (functions f a) s
  end.

End Step.

Fixpoint run (fuel : nat) (c : call) (s : state) : outcome :=
  match fuel with
  | 0 => Timeout
  | S n => step (run n) c s
  end.

(** ** Construction and accessors *)

(** [cls()]: the initialisers of [BasicTask], [Task] and [Future]. *)
Definition new_task (c : nat) (s : state) : tid * state :=
  (length (tasks s),
   {| tasks := tasks s ++
        [{| cls := c; _running := true; _event_signal_queue := None;
            _subscribers := λ _, []; _exception := VNone;
            _adopted_tasks := []; _result := VNone;
            _succeeded := false |}];
      log := log s; next_id := next_id s |}).

(** [Task.create_failure]: the new object and the outcome of the call
    [res.on_failure(exception)]; the object is returned when the
    outcome is [Ok]. *)
Definition create_failure (fuel : nat) (c : nat) (exception : val)
    (s : state) : tid * outcome :=
  let '(res, s1) := new_task c s in
  (res, run fuel (CallEvent res OnFailure exception) s1).

(** [Future.create_success]. *)
Definition create_success (fuel : nat) (c : nat) (result : val)
    (s : state) : tid * outcome :=
  let '(res, s1) := new_task c s in
  (res, run fuel (CallEvent res OnSuccess result) s1).

End Library.

#[global] Arguments run : simpl never.

(** Properties; [inr x] is the exception the property raises, [None] a
    reference to no object. *)
Definition running (t : tid) (s : state) : option bool :=
  _running <$> tasks s !! t.

Definition failed (t : tid) (s : state) : option (bool + pyexc) :=
  (λ o, if _running o then inr AssertionError
        else inl (bool_decide (_exception o ≠ VNone))) <$> tasks s !! t.

Definition exception (t : tid) (s : state) : option (val + pyexc) :=
  (λ o, if bool_decide (_exception o ≠ VNone) then inl (_exception o)
        else inr AssertionError) <$> tasks s !! t.

Definition succeeded (classes : nat → class_decl) (t : tid) (s : state)
  : option (bool + pyexc) :=
  (λ o, if is_future (classes (cls o)) then
          if _running o then inr AssertionError else inl (_succeeded o)
        else inr AttributeError) <$> tasks s !! t.

Definition result_of (classes : nat → class_decl) (t : tid) (s : state)
  : option (val + pyexc) :=
  (λ o, if is_future (classes (cls o)) then
          if _succeeded o then inl (_result o) else inr AssertionError
        else inr AttributeError) <$> tasks s !! t.

Definition empty : state := {| tasks := []; log := []; next_id := 0 |}.

(** ** Vocabulary of the specifications *)

(** The store just after [_transaction_context] bound a new list to
    [t._event_signal_queue], and just after its [finally] clause. *)
Definition opened (t : tid) (s : state) : state :=
  update t (set_queue (Some [])) s.

Definition closed (t : tid) (s : state) : state :=
  update t (set_queue None) s.

(** ** What the library does to the store

    Every change of a task object made by the library is one of these,
    under the guard stated. *)
Inductive task_mut : task → task → Prop :=
| tm_stop o :
    _running o = true → task_mut o (set_running false o)
| tm_exception o a :
    _running o = true → _subscribers o OnFailure ≠ [] →
    task_mut o (set_exception a o)
| tm_success o r :
    _running o = true → task_mut o (set_success r o)
| tm_subscribe o e i :
    task_mut o (set_subscribers e (_subscribers o e ++ [i]) o)
| tm_unsubscribe o e i l :
    remove_first i (_subscribers o e) = Some l →
    task_mut o (set_subscribers e l o)
| tm_adopt o c :
    task_mut o (set_adopted (_adopted_tasks o ++ [c]) o).

Inductive mut : state → state → Prop :=
| mut_task s t o o' :
    tasks s !! t = Some o → task_mut o o' →
    (∀ c, c ∈ _adopted_tasks o' → c ∈ _adopted_tasks o ∨ c < length (tasks s)) →
    mut s (update t (λ _, o') s)
| mut_body s t e a o :
    tasks s !! t = Some o → _running o = true → mut s (emit (Body t e a) s)
| mut_mark s m :
    mut s (emit (Marked m) s)
| mut_register s t q fn :
    queue_of t s = Some q → cl_owner fn = t → mut s (register t fn s).

Definition ensures (Q : state → Prop) (r : outcome) : Prop :=
  match r with
  | Ok s' | Raised _ s' => Q s'
  | Timeout | Dangling => True
  end.

(** A call started in a store satisfying [I] ends, if it ends, in a store
    satisfying [I] and related to the first by [R]. *)
Definition post_of (I : state → Prop) (R : state → state → Prop)
    (s : state) (r : outcome) : Prop :=
  ensures (λ s', I s' ∧ R s s') r.

(** A closure taken from a queue that was flushed in [s0] may be run
    when its notifications, in any later store, respect [I] and [R]. *)
Definition runnable_for (I : state → Prop) (R : state → state → Prop)
    (s0 : state) (c : queued) : Prop :=
  ∀ s i, I s → R s0 s → I (emit (Notify c i) s) ∧ R s (emit (Notify c i) s).

#[global] Arguments post_of : simpl never.

(** What has to be shown of [I] and [R] for every call to satisfy
    [post_of I R]: [R] is a preorder respected by the library's changes;
    a transaction that is opened, used in a way that respects them and
    closed again respects them as a whole; and the closures found in the
    queue at that moment may be run. *)
Record logic (I : state → Prop) (R : state → state → Prop) : Prop := {
  logic_refl : ∀ s, R s s;
  logic_trans : ∀ s1 s2 s3, R s1 s2 → R s2 s3 → R s1 s3;
  logic_mut : ∀ s s', mut s s' → I s → I s' ∧ R s s';
  logic_open : ∀ s t,
    I s → queue_of t s = None → is_Some (tasks s !! t) → I (opened t s);
  logic_close : ∀ s t s',
    I s → queue_of t s = None → I s' → R (opened t s) s' →
    I (closed t s') ∧ R s (closed t s');
  logic_flush : ∀ s t s' q c,
    I s → queue_of t s = None → I s' → R (opened t s) s' →
    queue_of t s' = Some q → c ∈ q → runnable_for I R (closed t s') c
}.

(** The lifecycle fields of a task that is no longer running are the
    same in [o']. *)
Definition frozen (o o' : task) : Prop :=
  _running o = false →
  _running o' = false ∧ _exception o' = _exception o ∧
  _result o' = _result o ∧ _succeeded o' = _succeeded o.

(** No task disappears or changes class, stopped tasks stay as they
    are, and the trace and the serial counter only grow. *)
Definition steady (s s' : state) : Prop :=
  length (tasks s') = length (tasks s) ∧
  next_id s ≤ next_id s' ∧
  log s `prefix_of` log s' ∧
  ∀ t o, tasks s !! t = Some o →
    ∃ o', tasks s' !! t = Some o' ∧ cls o' = cls o ∧ frozen o o'.

(** Transactions are properly nested: a call leaves no transaction open
    that it found closed, and only appends to the queues it found open. *)
Definition balanced (s s' : state) : Prop :=
  ∀ t, match queue_of t s with
       | None => queue_of t s' = None
       | Some q => ∃ q', queue_of t s' = Some (q ++ q')
       end.

Definition lawful (s s' : state) : Prop := steady s s' ∧ balanced s s'.

(** ** Example programs, used to instantiate the theorems *)

Module Demo.

(** Every class is [Task] itself, or [Future] itself. *)
Definition tasks_only : nat → class_decl := λ _, Task.
Definition futures_only : nat → class_decl := λ _, Future.

(** Client function number [f] records [f] in the trace. *)
Definition marking : nat → val → list cmd := λ f _, [Mark f].

Definition one_task : state := (new_task 0 empty).2.
Definition two_tasks : state := (new_task 0 one_task).2.

Definition final (r : outcome) : state :=
  match r with
  | Ok s | Raised _ s => s
  | Timeout | Dangling => empty
  end.

(** A class with two events and two transaction methods:
    - event 0 fires event 1 from its body, event 1 only records;
    - transaction 0 fires event 0 and then subscribes function 9 to it;
    - transaction 1 fires event 1 of the task given as argument. *)
Definition nested : class_decl :=
  {| is_future := false;
     events := λ n,
       match n with
       | 0 => Some (λ self a, [Mark 100; Fire self (Declared 1) a; Mark 101])
       | 1 => Some (λ self a, [Mark 110])
       | _ => None
       end;
     transactions := λ m,
       match m with
       | 0 => Some (λ self a,
                [Fire self (Declared 0) a;
                 Subscribe self (Declared 0) (HFun 9); Mark 200])
       | 1 => Some (λ self a, [Fire 1 (Declared 1) a; Mark 201])
       | _ => None
       end |}.

Definition nested_only : nat → class_decl := λ _, nested.

(** One task whose only task has been stopped. *)
Definition stopped_task : state :=
  final (run nested_only marking 1 (CallStop 0) one_task).

(** Two tasks; function 5 is subscribed to the failure of task 0. *)
Definition watched : state :=
  final (__iadd__ tasks_only 0 OnFailure (HFun 5) two_tasks).

(** Task 0 has adopted task 1, with the default handler. *)
Definition adopted : state :=
  final (_adopt_task tasks_only 0 1 None watched).


(** Client function 0 raises an [Exception] when it is called with 1,
    function 1 always raises a [BaseException] that is no [Exception];
    otherwise the functions record their number. *)
Definition raising : nat → val → list cmd := λ f a,
  match f with
  | 0 => if decide (a = VInt 1) then [Raise (PyException 1)] else [Mark 0]
  | 1 => [Raise (PyBaseException 2)]
  | _ => [Mark f]
  end.

(** The class [nested] with a third transaction method, which only
    fires event 0. *)
Definition nested' : class_decl :=
  {| is_future := false;
     events := events nested;
     transactions := λ m,
       match m with
       | 2 => Some (λ self a, [Fire self (Declared 0) a; Mark 202])
       | _ => transactions nested m
       end |}.

Definition nested'_only : nat → class_decl := λ _, nested'.

(** One task; function 5 listens to event 0 and function 6 to event 1. *)
Definition listening : state :=
  final (__iadd__ nested'_only 0 (Declared 1) (HFun 6)
           (final (__iadd__ nested'_only 0 (Declared 0) (HFun 5) one_task))).

(** One task; functions 7, 0 and 8 listen to event 1, in that order. *)
Definition listening_raising : state :=
  final (for_each (__iadd__ nested'_only 0 (Declared 1))
           [HFun 7; HFun 0; HFun 8] one_task).

(** The store in which the pass of the first event 1 fired on
    [listening_raising] starts, and its closure. *)
Definition first_closure : queued :=
  {| serial := 0;
     thunk := {| cl_owner := 0; cl_event := Declared 1; cl_arg := VInt 1 |} |}.

Definition pass_start : state :=
  closed 0 (register 0 (thunk first_closure) (opened 0 listening_raising)).

(** Two tasks; function 6 listens to event 1 of task 1, and a
    transaction of task 0 is open. *)
Definition inside_other : state :=
  opened 0 (final (__iadd__ nested'_only 1 (Declared 1) (HFun 6) two_tasks)).


(** One future; function 5 listens to its success. *)
Definition awaited : state :=
  final (__iadd__ futures_only 0 OnSuccess (HFun 5) one_task).

(** Task 0 has adopted task 1 and has function 5 called when it fails. *)
Definition redirected : state :=
  final (_adopt_task tasks_only 0 1 (Some (HFun 5)) two_tasks).

(** One task; function 0, which raises when called with 1, listens to
    event 1 and function 7 to event 0. *)
Definition flush_raising : state :=
  final (__iadd__ nested'_only 0 (Declared 0) (HFun 7)
    (final (__iadd__ nested'_only 0 (Declared 1) (HFun 0)
                   one_task))).

(** A class with the events of [nested] and one transaction method,
    which fires event 1 and then raises. *)
Definition failing : class_decl :=
  {| is_future := false;
     events := events nested;
     transactions := λ m,
       match m with
       | 0 => Some (λ self a,
                [Fire self (Declared 1) a; Raise (PyException 3)])
       | _ => None
       end |}.

Definition failing_only : nat → class_decl := λ _, failing.







(** The class [nested'] with a fourth transaction method, which calls
    transaction 1 of task 0 and then records 300. *)
Definition relaying : class_decl :=
  {| is_future := false;
     events := events nested';
     transactions := λ m,
       match m with
       | 3 => Some (λ self a, [Invoke 0 1 a; Mark 300])
       | _ => transactions nested' m
       end |}.

Definition relaying_only : nat → class_decl := λ _, relaying.

(** Two tasks; function 6 listens to event 1 of task 1. *)
Definition listening_other : state :=
  final (__iadd__ nested'_only 1 (Declared 1) (HFun 6)
                two_tasks).

End Demo.

(** ** Adoption and stopping *)

(** [p] has adopted [c]. *)
Definition adopts (s : state) (p c : tid) : Prop :=
  ∃ o, tasks s !! p = Some o ∧ c ∈ _adopted_tasks o.

(** Every adopted reference is an object of the store. *)
Definition refs_ok (s : state) : Prop :=
  ∀ p c, adopts s p c → c < length (tasks s).

Definition count_running (s : state) : nat :=
  sum_list_with (λ o, if _running o then 1 else 0) (tasks s).

(** [s'] is [s] in which some running tasks that [t] has adopted,
    directly or through others, or [t] itself, have been stopped. *)
Definition stops (t : tid) (s s' : state) : Prop :=
  log s' = log s ∧ next_id s' = next_id s ∧
  length (tasks s') = length (tasks s) ∧
  ∀ p o, tasks s !! p = Some o →
    tasks s' !! p = Some o ∨
    (rtc (adopts s) t p ∧ _running o = true ∧
     tasks s' !! p = Some (set_running false o)).

(** [t] has stopped by failing with [x]. *)
Definition failed_with (t : tid) (x : val) (s : state) : Prop :=
  ∃ o, tasks s !! t = Some o ∧ _running o = false ∧ _exception o = x.

(** A subscriber that is a client function doing nothing but recording. *)
Definition passive (functions : nat → val → list cmd) (i : handler) : Prop :=
  ∃ f, i = HFun f ∧ ∀ a, ∃ ms, functions f a = Mark <$> ms.

(** ** Traces and queues *)

(** The part of the trace of [s'] written since [s]. *)
Definition added (s s' : state) : list obs :=
  drop (length (log s)) (log s').

(** The subscribers called by the closure with serial [k], call by call. *)
Definition notified (k : nat) (l : list obs) : list handler :=
  omap (λ x, match x with
             | Notify c i => if decide (serial c = k) then Some i else None
             | _ => None
             end) l.


(** The closures of events of [t] that were handed to
    [_run_within_transaction], in that order. *)
Definition registered (t : tid) (l : list obs) : list queued :=
  omap (λ x, match x with
             | Registered c =>
                 if decide (cl_owner (thunk c) = t) then Some c else None
             | _ => None
             end) l.



(** No subscriber of an event of [t] is called in [l]. *)
Definition silent (t : tid) (l : list obs) : Prop :=
  ∀ c i, Notify c i ∈ l → cl_owner (thunk c) ≠ t.


Definition subscribers_of (t : tid) (e : ename) (s : state) : list handler :=
  from_option (λ o, _subscribers o e) [] (tasks s !! t).

(** The queues hold closures of their own task, each with a serial of
    its own that has been issued; so have the notifications made. *)
Definition wf (s : state) : Prop :=
  (∀ t q c, queue_of t s = Some q → c ∈ q →
     cl_owner (thunk c) = t ∧ serial c < next_id s) ∧
  (∀ t q, queue_of t s = Some q → NoDup (serial <$> q)) ∧
  (∀ t t' q q' c c', queue_of t s = Some q → queue_of t' s = Some q' →
     c ∈ q → c' ∈ q' → serial c = serial c' → t = t') ∧
  (∀ c i, Notify c i ∈ log s → serial c < next_id s).

(** The serial [k] has been issued and its closure waits in no queue. *)
Definition absent (k : nat) (s : state) : Prop :=
  k < next_id s ∧ ∀ t q, queue_of t s = Some q → k ∉ serial <$> q.

Definition unnotified (k : nat) (s s' : state) : Prop :=
  notified k (log s') = notified k (log s).

(** A transaction of [T] is open. *)
Definition in_transaction (T : tid) (s : state) : Prop :=
  wf s ∧ is_Some (queue_of T s).

(** Since [s], the events of [T] have only been queued. *)
Definition awaiting (T : tid) (s s' : state) : Prop :=
  ∀ q, queue_of T s = Some q →
    queue_of T s' = Some (q ++ registered T (added s s')) ∧
    silent T (added s s').

Definition deferring (T : tid) (s s' : state) : Prop :=
  lawful s s' ∧ awaiting T s s'.

(** ** Stopped adoption trees *)

(** Every task adopted by a task that is not running is not running
    either; [settled_except X] exempts the tasks in [X], whose [stop] is
    still going through their adopted tasks. *)
Definition settled_except (X : tid → Prop) (s : state) : Prop :=
  ∀ p c, adopts s p c → running p s = Some false → ¬ X p →
         running c s = Some false.

Definition settled (s : state) : Prop :=
  ∀ p c, adopts s p c → running p s = Some false → running c s = Some false.

(** The marks recorded and the subscribers called, in the order of the
    trace. *)
Definition marks_and_calls (l : list obs) : list (nat + handler) :=
  omap (λ x, match x with
             | Marked m => Some (inl m)
             | Notify _ i => Some (inr i)
             | _ => None
             end) l.


(** * Proofs *)

(** ** Elementary facts about the store *)

Lemma update_const t f s o :
  tasks s !! t = Some o → update t f s = update t (λ _, f o) s.
Proof.
  intros Ho. unfold update. f_equal.
  apply list_eq. intros j. destruct (decide (t = j)) as [<-|].
  - by rewrite !list_lookup_alter_eq, Ho.
  - by rewrite !list_lookup_alter_ne.
Qed.

Lemma lookup_update t f s t' :
  tasks (update t f s) !! t' =
  if decide (t = t') then f <$> tasks s !! t else tasks s !! t'.
Proof. unfold update. simpl. rewrite list_lookup_alter. by case_decide. Qed.

Lemma lookup_update_eq t f s : tasks (update t f s) !! t = f <$> tasks s !! t.
Proof. rewrite lookup_update. by case_decide. Qed.

Lemma lookup_update_ne t f s t' :
  t ≠ t' → tasks (update t f s) !! t' = tasks s !! t'.
Proof. intros. rewrite lookup_update. by case_decide. Qed.

Lemma ensures_impl (Q Q' : state → Prop) r :
  (∀ s, Q s → Q' s) → ensures Q r → ensures Q' r.
Proof. destruct r; simpl; auto. Qed.

Section Soundness.

Context (classes : nat → class_decl) (functions : nat → val → list cmd).

(** An invariant [I] of the store and a relation [R] between the store
    at the start and at the end of a call. *)
Context (I : state → Prop) (R : state → state → Prop).

#[local] Abbreviation runnable := (runnable_for I R).
#[local] Abbreviation post := (post_of I R).

Hypothesis Hlogic : logic I R.

#[local] Abbreviation R_refl := (logic_refl I R Hlogic).
#[local] Abbreviation R_trans := (logic_trans I R Hlogic).
#[local] Abbreviation H_mut := (logic_mut I R Hlogic).
#[local] Abbreviation H_open := (logic_open I R Hlogic).
#[local] Abbreviation H_close := (logic_close I R Hlogic).
#[local] Abbreviation H_flush := (logic_flush I R Hlogic).

Lemma post_Ok s : I s → post s (Ok s).
Proof. split; [done|apply R_refl]. Qed.

Lemma post_Raised x s : I s → post s (Raised x s).
Proof. split; [done|apply R_refl]. Qed.

Lemma post_step s s' r : R s s' → post s' r → post s r.
Proof.
  intros HR. apply ensures_impl. intros s'' [? ?]. split; [done|].
  by apply (R_trans s s' s'').
Qed.

Lemma post_mut s s' r : I s → mut s s' → (I s' → post s' r) → post s r.
Proof.
  intros HI Hm Hr. destruct (H_mut _ _ Hm HI) as [HI' HR].
  eapply post_step; eauto.
Qed.

Lemma for_each_sound_from {A} (body : A → state → outcome) l s0 s :
  (∀ x s, x ∈ l → I s → R s0 s → post s (body x s)) →
  I s → R s0 s → post s (for_each body l s).
Proof.
  revert s. induction l as [|x l IH]; intros s Hbody HI HR0; simpl.
  - by apply post_Ok.
  - pose proof (Hbody x s ltac:(left) HI HR0) as Hx.
    destruct (body x s) as [s'| | |]; try done.
    destruct Hx as [HI' HR]. eapply post_step; [done|].
    apply IH; [|done|by apply (R_trans s0 s s')].
    intros y s'' Hy. apply Hbody. by right.
Qed.

Lemma for_each_sound {A} (body : A → state → outcome) l s :
  (∀ x s, x ∈ l → I s → post s (body x s)) →
  I s → post s (for_each body l s).
Proof.
  intros Hbody HI. apply (for_each_sound_from body l s); [|done|apply R_refl].
  intros. by apply Hbody.
Qed.

Section Step.

Variable rec : call → state → outcome.
Hypothesis Hrec : ∀ c s, I s → post s (rec c s).

Lemma call_handler_sound i a s :
  I s → post s (call_handler rec i a s).
Proof. destruct i; simpl; auto. Qed.

Lemma notify_sound c i s0 s :
  runnable s0 c → I s → R s0 s → post s (notify rec c i s).
Proof.
  intros Hc HI HR0. destruct (Hc s i HI HR0) as [HI' HR].
  eapply post_step; [done|]. unfold notify.
  pose proof (call_handler_sound i (cl_arg (thunk c)) _ HI') as H.
  destruct (call_handler _ _ _ _); try done.
  by destruct (is_Exception _).
Qed.

Lemma do_call_sound c s0 s :
  runnable s0 c → I s → R s0 s → post s (do_call rec c s).
Proof.
  intros Hc HI HR0. unfold do_call, with_task.
  destruct (tasks s !! _); [|done].
  apply (for_each_sound_from _ _ s0); [|done..].
  intros. by eapply notify_sound.
Qed.

Lemma transaction_context_sound self block s :
  (∀ s', I s' → is_Some (queue_of self s') → post s' (block s')) →
  I s → post s (_transaction_context rec self block s).
Proof.
  intros Hblock HI. unfold _transaction_context, with_task.
  destruct (tasks s !! self) as [o|] eqn:Ho; [|done].
  assert (queue_of self s = _event_signal_queue o) as Hq.
  { unfold queue_of. by rewrite Ho. }
  destruct (_event_signal_queue o) as [q|] eqn:Hqo.
  { apply Hblock; [done|]. rewrite Hq. eauto. }
  assert (I (opened self s)) as HIo by (apply H_open; eauto).
  assert (is_Some (queue_of self (opened self s))) as Hso.
  { unfold queue_of, opened. rewrite lookup_update_eq, Ho. simpl. eauto. }
  pose proof (Hblock _ HIo Hso) as Hb.
  change (update self (set_queue (Some [])) s) with (opened self s).
  destruct (block (opened self s)) as [s1|x s1| |]; try done.
  - destruct Hb as [HI1 HR1].
    destruct (H_close s self s1 HI Hq HI1 HR1) as [HIc HRc].
    eapply post_step; [done|].
    apply (for_each_sound_from _ _ (closed self s1)); [|done|apply R_refl].
    intros c s' Hc HI' HR'. apply (do_call_sound c (closed self s1)); [|done..].
    destruct (queue_of self s1) as [q1|] eqn:Hq1; simpl in Hc.
    + eapply (H_flush s self s1 q1 c); eauto.
    + by apply elem_of_nil in Hc.
  - destruct Hb as [HI1 HR1].
    destruct (H_close s self s1 HI Hq HI1 HR1) as [HIc HRc]. by split.
Qed.

Lemma run_within_transaction_sound self fn s :
  cl_owner fn = self →
  I s → post s (_run_within_transaction rec self fn s).
Proof.
  intros Hfn HI. apply transaction_context_sound; [|done].
  intros s' HI' [q Hq].
  destruct (H_mut s' (register self fn s')) as [? ?]; [|done|by split].
  by eapply mut_register.
Qed.

Lemma stop_task_sound o s : I s → post s (stop_task rec o s).
Proof.
  intros HI. destruct o as [t|]; simpl; [|by apply post_Ok].
  unfold with_task. destruct (tasks s !! t); [|done].
  destruct (_running _); [auto|by apply post_Ok].
Qed.

Lemma post_task_mut t o o' s r :
  I s → tasks s !! t = Some o → task_mut o o' →
  (∀ c, c ∈ _adopted_tasks o' → c ∈ _adopted_tasks o ∨ c < length (tasks s)) →
  (I (update t (λ _, o') s) → post (update t (λ _, o') s) r) →
  post s r.
Proof. intros HI Ho Hm Ha. apply post_mut; [done|]. by eapply mut_task. Qed.

Lemma stop_sound self s : I s → post s (stop rec self s).
Proof.
  intros HI. unfold stop, with_task.
  destruct (tasks s !! self) as [o|] eqn:Ho; [|done].
  destruct (_running o) eqn:Hr; cbn [negb]; [|by apply post_Raised].
  rewrite (update_const _ _ _ _ Ho).
  eapply (post_task_mut self o (set_running false o));
    [done..|by constructor|by left|].
  intros HI'. apply for_each_sound; [|done].
  intros. by apply stop_task_sound.
Qed.

Lemma iadd_sound t e i s : I s → post s (__iadd__ classes t e i s).
Proof.
  intros HI. unfold __iadd__, with_task.
  destruct (tasks s !! t) as [o|] eqn:Ho; [|done].
  destruct (has_event _ _); [|by apply post_Raised].
  rewrite (update_const _ _ _ _ Ho).
  eapply (post_task_mut t o (set_subscribers e (_subscribers o e ++ [i]) o));
    [done..|constructor|by left|].
  intros. by apply post_Ok.
Qed.

Lemma isub_sound t e i s : I s → post s (__isub__ classes t e i s).
Proof.
  intros HI. unfold __isub__, with_task.
  destruct (tasks s !! t) as [o|] eqn:Ho; [|done].
  destruct (has_event _ _); [|by apply post_Raised].
  destruct (remove_first _ _) as [l|] eqn:Hl; [|by apply post_Raised].
  rewrite (update_const _ _ _ _ Ho).
  eapply (post_task_mut t o (set_subscribers e l o));
    [done..|by econstructor|by left|].
  intros. by apply post_Ok.
Qed.

Lemma adopt_task_sound p c fh s :
  I s → post s (_adopt_task classes p c fh s).
Proof.
  intros HI. unfold _adopt_task, with_task at 1.
  destruct (tasks s !! p) as [o|] eqn:Ho; [|done].
  destruct (tasks s !! c) as [oc|] eqn:Hc.
  - rewrite (update_const _ _ _ _ Ho).
    eapply (post_task_mut p o (set_adopted (_adopted_tasks o ++ [c]) o));
      [done..|constructor| |].
    + simpl. intros c' [?| ->%list_elem_of_singleton]%elem_of_app; [by left|].
      right. by eapply lookup_lt_Some.
    + intros. by apply iadd_sound.
  - unfold __iadd__, with_task.
    rewrite lookup_update.
    case_decide; [subst; congruence|]. by rewrite Hc.
Qed.

Lemma exec_cmd_sound c s : I s → post s (exec_cmd classes rec c s).
Proof.
  intros HI. destruct c; simpl;
    auto using iadd_sound, isub_sound, stop_task_sound, adopt_task_sound,
      post_Raised.
  eapply (post_mut s (emit (Marked m) s)); [done|apply mut_mark|].
  intros. by apply post_Ok.
Qed.

Lemma exec_sound l s :
  I s → post s (for_each (exec_cmd classes rec) l s).
Proof.
  intros. apply for_each_sound; [|done]. intros. by apply exec_cmd_sound.
Qed.

Lemma call_method_sound t e a s :
  I s → (∃ o, tasks s !! t = Some o ∧ _running o = true) →
  post s (_call_method classes rec t e a s).
Proof.
  intros HI (o & Ho & Hr). unfold _call_method, with_task. rewrite Ho.
  destruct e as [| |n].
  - unfold on_failure, with_task. rewrite Ho.
    case_bool_decide as Hs; [by apply post_Raised|].
    rewrite (update_const _ _ _ _ Ho).
    eapply (post_task_mut t o (set_exception a o));
      [done..|by constructor|by left|]. auto.
  - unfold on_success.
    rewrite (update_const _ _ _ _ Ho).
    eapply (post_task_mut t o (set_success a o));
      [done..|by constructor|by left|]. auto.
  - destruct (events _ _); [by apply exec_sound|by apply post_Raised].
Qed.

Lemma Event_call_sound t e a s :
  I s → post s (Event_call classes rec t e a s).
Proof.
  intros HI. unfold Event_call, with_task.
  destruct (tasks s !! t) as [o|] eqn:Ho; [|done].
  destruct (has_event _ _); [|by apply post_Raised].
  destruct (_running o) eqn:Hr; [|by apply post_Ok].
  eapply (post_mut s (emit (Body t e a) s)); [done|by eapply mut_body|].
  intros HI'.
  pose proof (call_method_sound t e a _ HI' ltac:(eauto)) as Hb.
  destruct (_call_method _ _ _ _ _ _) as [s1| | |]; try done.
  destruct Hb as [HI1 HR1]. eapply post_step; [done|].
  by apply run_within_transaction_sound.
Qed.

Lemma Transaction_call_sound t m a s :
  I s → post s (Transaction_call classes rec t m a s).
Proof.
  intros HI. unfold Transaction_call, with_task.
  destruct (tasks s !! t) as [o|] eqn:Ho; [|done].
  destruct (transactions _ _); [|by apply post_Raised].
  apply transaction_context_sound; [|done].
  intros. by apply exec_sound.
Qed.

Lemma step_sound c s :
  I s → post s (step classes functions rec c s).
Proof.
  intros HI. destruct c; simpl;
    auto using Event_call_sound, Transaction_call_sound, stop_sound,
      exec_sound.
Qed.

End Step.

Theorem run_sound n c s : I s → post s (run classes functions n c s).
Proof.
  revert c s. induction n as [|n IH]; intros c s HI; [done|].
  simpl. by apply step_sound.
Qed.

End Soundness.

(** ** Stopped tasks stay stopped, transactions are balanced *)

Lemma queue_of_update t f s t' :
  queue_of t' (update t f s) =
  if decide (t = t') then (f <$> tasks s !! t) ≫= _event_signal_queue
  else queue_of t' s.
Proof. unfold queue_of. rewrite lookup_update. by case_decide. Qed.

Lemma queue_of_update_ne t f s t' :
  t ≠ t' → queue_of t' (update t f s) = queue_of t' s.
Proof. intros. rewrite queue_of_update. by case_decide. Qed.

Lemma queue_of_update_keep t f s t' :
  (∀ o, _event_signal_queue (f o) = _event_signal_queue o) →
  queue_of t' (update t f s) = queue_of t' s.
Proof.
  intros Hf. rewrite queue_of_update. case_decide; [subst|done].
  unfold queue_of. destruct (tasks s !! t'); simpl; auto.
Qed.

Lemma queue_of_set_queue t q s t' :
  queue_of t' (update t (set_queue q) s) =
  if decide (t = t') then tasks s !! t ≫= λ _, q else queue_of t' s.
Proof.
  rewrite queue_of_update. case_decide; [|done].
  by destruct (tasks s !! t).
Qed.

Lemma queue_of_emit t x s : queue_of t (emit x s) = queue_of t s.
Proof. done. Qed.

Lemma queue_of_register t fn s t' :
  queue_of t' (register t fn s) =
  if decide (t = t') then
    (λ q, q ++ [{| serial := next_id s; thunk := fn |}]) <$> queue_of t s
  else queue_of t' s.
Proof.
  unfold queue_of, register. simpl. rewrite list_lookup_alter.
  case_decide; [|done]. destruct (tasks s !! t) as [o|]; [|done].
  simpl. by destruct (_event_signal_queue o).
Qed.

Lemma lookup_register t fn s t' :
  tasks (register t fn s) !! t' =
  if decide (t = t') then
    (λ o, set_queue ((λ q, q ++ [{| serial := next_id s; thunk := fn |}])
                       <$> _event_signal_queue o) o) <$> tasks s !! t
  else tasks s !! t'.
Proof. unfold register. simpl. rewrite list_lookup_alter. by case_decide. Qed.

Lemma task_mut_facts o o' :
  task_mut o o' →
  cls o' = cls o ∧ _event_signal_queue o' = _event_signal_queue o ∧
  frozen o o'.
Proof.
  unfold frozen. destruct 1; simpl; repeat split; auto; congruence.
Qed.

#[global] Instance steady_preorder : PreOrder steady.
Proof.
  split.
  - intros s. split; [|split; [|split]]; auto. intros t o Ho. exists o.
    by repeat split.
  - intros s1 s2 s3 (Hl & Hn & Hp & Ht) (Hl' & Hn' & Hp' & Ht').
    split; [|split; [|split]]; [congruence|lia|by etrans|].
    intros t o Ho. destruct (Ht _ _ Ho) as (o' & Ho' & Hc & Hf).
    destruct (Ht' _ _ Ho') as (o'' & Ho'' & Hc' & Hf').
    exists o''. split; [done|]. split; [congruence|].
    intros Hr. destruct (Hf Hr) as (? & ? & ? & ?).
    destruct (Hf' ltac:(done)) as (? & ? & ? & ?).
    repeat split; congruence.
Qed.

#[global] Instance balanced_preorder : PreOrder balanced.
Proof.
  split.
  - intros s t. destruct (queue_of t s) as [q|]; [|done].
    exists []. by rewrite app_nil_r.
  - intros s1 s2 s3 H12 H23 t. specialize (H12 t). specialize (H23 t).
    destruct (queue_of t s1) as [q|].
    + destruct H12 as [q' Hq']. rewrite Hq' in H23.
      destruct H23 as [q'' Hq'']. exists (q' ++ q'').
      by rewrite Hq'', app_assoc.
    + by rewrite H12 in H23.
Qed.

#[global] Instance lawful_preorder : PreOrder lawful.
Proof.
  split.
  - intros s. split; reflexivity.
  - intros s1 s2 s3 [? ?] [? ?]. split; etrans; eauto.
Qed.

(** A change of one task that keeps its class and respects [frozen]. *)
Lemma steady_update t f s :
  (∀ o, tasks s !! t = Some o → cls (f o) = cls o ∧ frozen o (f o)) →
  steady s (update t f s).
Proof.
  intros Hf. split; [|split; [|split]]; simpl;
    [by rewrite length_alter|done|done|].
  intros t' o Ho. rewrite list_lookup_alter.
  case_decide; [subst|].
  - rewrite Ho. simpl. exists (f o). split; [done|]. by apply Hf.
  - exists o. by repeat split.
Qed.

Lemma steady_emit x s : steady s (emit x s).
Proof.
  split; [|split; [|split]]; simpl; [done|done|by apply prefix_app_r|].
  intros t o Ho. exists o. by repeat split.
Qed.

Lemma steady_set_queue t q s : steady s (update t (set_queue q) s).
Proof. apply steady_update. intros o _. by repeat split. Qed.

Lemma steady_register t fn s : steady s (register t fn s).
Proof.
  split; [|split; [|split]]; simpl;
    [by rewrite length_alter|lia|by apply prefix_app_r|].
  intros t' o Ho. rewrite list_lookup_alter.
  case_decide; [subst|].
  - rewrite Ho. simpl. eexists. split; [done|]. by repeat split.
  - exists o. by repeat split.
Qed.

Lemma balanced_keep s s' :
  (∀ t, queue_of t s' = queue_of t s) → balanced s s'.
Proof.
  intros H t. rewrite H. destruct (queue_of t s) as [q|]; [|done].
  exists []. by rewrite app_nil_r.
Qed.

Lemma lawful_mut s s' : mut s s' → lawful s s'.
Proof.
  destruct 1 as [s t o o' Ho Hm _|s t e a o _ _|s m|s t q fn Hq _].
  - destruct (task_mut_facts _ _ Hm) as (Hc & Hq & Hf). split.
    + apply steady_update. intros o1 Ho1. by simplify_eq.
    + apply balanced_keep. intros t'. rewrite queue_of_update.
      case_decide; [subst|done]. unfold queue_of. by rewrite Ho.
  - split; [apply steady_emit|by apply balanced_keep].
  - split; [apply steady_emit|by apply balanced_keep].
  - split; [apply steady_register|].
    intros t'. rewrite queue_of_register. case_decide; [subst|].
    + rewrite Hq. simpl. eauto.
    + destruct (queue_of t' s); [|done]. exists []. by rewrite app_nil_r.
Qed.

Lemma lawful_close s t s' :
  queue_of t s = None → lawful (opened t s) s' → lawful s (closed t s').
Proof.
  intros Hq [Hs Hb]. split.
  - etrans; [apply steady_set_queue|]. etrans; [apply Hs|].
    apply steady_set_queue.
  - intros t'. specialize (Hb t'). unfold opened, closed in *.
    destruct (decide (t = t')) as [<-|Hne].
    + rewrite Hq, queue_of_set_queue, decide_True by done.
      by destruct (tasks s' !! t).
    + by rewrite !queue_of_update_ne in * by done.
Qed.

Lemma lawful_emit x s : lawful s (emit x s).
Proof. split; [apply steady_emit|by apply balanced_keep]. Qed.

Section Lawful.

Context (classes : nat → class_decl) (functions : nat → val → list cmd).

#[local] Abbreviation always := (λ _ : state, True).

Lemma lawful_logic : logic always lawful.
Proof.
  split.
  - reflexivity.
  - intros s1 s2 s3. apply transitivity.
  - intros ?? Hm _. split; [done|by apply lawful_mut].
  - done.
  - intros ??? _ Hq _ Hl. split; [done|by apply lawful_close].
  - intros ????? _ _ _ _ _ _ ?? _ _. split; [done|apply lawful_emit].
Qed.

Lemma ensures_lawful s r : post_of always lawful s r → ensures (lawful s) r.
Proof. apply ensures_impl. by intros ? [_ ?]. Qed.

Theorem run_lawful n c s :
  ensures (lawful s) (run classes functions n c s).
Proof. apply ensures_lawful, run_sound; [apply lawful_logic|done]. Qed.

End Lawful.

(** ** Single calls *)

Section Calls.

Context (classes : nat → class_decl) (functions : nat → val → list cmd).

#[local] Abbreviation run := (run classes functions).

Lemma run_event_unfold n t e a s :
  run (S n) (CallEvent t e a) s = Event_call classes (run n) t e a s.
Proof. done. Qed.

Lemma run_stop_unfold n t s :
  run (S n) (CallStop t) s = stop (run n) t s.
Proof. done. Qed.

Lemma run_transaction_unfold n t m a s :
  run (S n) (CallTransaction t m a) s =
  Transaction_call classes (run n) t m a s.
Proof. done. Qed.

Lemma run_function_unfold n f a s :
  run (S n) (CallFunction f a) s =
  for_each (exec_cmd classes (run n)) (functions f a) s.
Proof. done. Qed.

(** An event of a task that is not running: nothing happens at all. *)
Lemma Event_call_stopped rec t e a s o :
  tasks s !! t = Some o → has_event (classes (cls o)) e = true →
  _running o = false →
  Event_call classes rec t e a s = Ok s.
Proof.
  intros Ho He Hr. unfold Event_call, with_task. by rewrite Ho, He, Hr.
Qed.

(** [on_failure] with no subscriber. *)
Lemma Event_call_unobserved_failure rec t a s o :
  tasks s !! t = Some o → _running o = true →
  _subscribers o OnFailure = [] →
  Event_call classes rec t OnFailure a s =
  Raised NoFailureHandlerException (emit (Body t OnFailure a) s).
Proof.
  intros Ho Hr Hs. unfold Event_call, with_task. rewrite Ho. simpl.
  rewrite Hr. unfold _call_method, on_failure, with_task. simpl.
  rewrite Ho. by rewrite bool_decide_eq_true_2.
Qed.

End Calls.

Lemma lookup_new_task c s :
  tasks (new_task c s).2 !! (new_task c s).1 =
  Some {| cls := c; _running := true; _event_signal_queue := None;
          _subscribers := λ _, []; _exception := VNone;
          _adopted_tasks := []; _result := VNone; _succeeded := false |}.
Proof. simpl. apply list_lookup_middle. done. Qed.

(** C6: firing [on_failure] on a running task without subscribers raises
    [NoFailureHandlerException]; the task objects are left exactly as
    they were, so the task is still running and records no exception. *)
Theorem on_failure_without_handler classes functions n t a s o :
  tasks s !! t = Some o → _running o = true →
  _subscribers o OnFailure = [] →
  ∃ s', run classes functions (S n) (CallEvent t OnFailure a) s
        = Raised NoFailureHandlerException s' ∧
        tasks s' = tasks s ∧
        running t s' = Some true ∧
        (_exception <$> tasks s' !! t) = Some (_exception o).
Proof.
  intros Ho Hr Hs. exists (emit (Body t OnFailure a) s).
  rewrite run_event_unfold.
  rewrite (Event_call_unobserved_failure _ _ _ _ _ _ Ho Hr Hs).
  unfold running. simpl. rewrite Ho. simpl. by rewrite Hr.
Qed.

Lemma on_failure_without_handler_witness :
  ∃ s', run Demo.tasks_only Demo.marking 1
          (CallEvent 0 OnFailure (VExc (PyException 1))) Demo.one_task
        = Raised NoFailureHandlerException s' ∧
        tasks s' = tasks Demo.one_task ∧
        running 0 s' = Some true ∧
        (_exception <$> tasks s' !! 0) = Some VNone.
Proof.
  exact (on_failure_without_handler Demo.tasks_only Demo.marking 0 0
           (VExc (PyException 1)) Demo.one_task _
           eq_refl eq_refl eq_refl).
Defined.

(** C1, as the code has it: [create_failure] builds the task and fires
    [on_failure] on it while no subscriber can be attached yet, so the
    call raises [NoFailureHandlerException]; the task it built is still
    running and has no exception. *)
Theorem create_failure_raises classes functions n c e s :
  ∃ s', create_failure classes functions (S n) c (VExc e) s
        = (length (tasks s), Raised NoFailureHandlerException s') ∧
        running (length (tasks s)) s' = Some true ∧
        failed (length (tasks s)) s' = Some (inr AssertionError) ∧
        exception (length (tasks s)) s' = Some (inr AssertionError).
Proof.
  pose proof (lookup_new_task c s) as Hn.
  destruct (on_failure_without_handler classes functions n _ (VExc e) _ _ Hn
              eq_refl eq_refl) as (s' & Hrun & Ht & _).
  exists s'. unfold create_failure. simpl in *. rewrite Hrun.
  split; [done|]. unfold running, failed, exception. rewrite Ht.
  by rewrite list_lookup_middle.
Qed.

(** C3, as the code has it: an event fired on a task that is not running
    does nothing, its declared body is not executed either. *)
Theorem event_on_stopped_task_does_nothing classes functions n t e a s o :
  tasks s !! t = Some o → has_event (classes (cls o)) e = true →
  _running o = false →
  run classes functions (S n) (CallEvent t e a) s = Ok s.
Proof. intros. rewrite run_event_unfold. by eapply Event_call_stopped. Qed.

Lemma event_on_stopped_task_does_nothing_witness :
  run Demo.nested_only Demo.marking 1 (CallEvent 0 (Declared 1) (VInt 5))
      Demo.stopped_task = Ok Demo.stopped_task.
Proof.
  exact (event_on_stopped_task_does_nothing Demo.nested_only Demo.marking
           0 0 (Declared 1) (VInt 5) Demo.stopped_task _
           eq_refl eq_refl eq_refl).
Defined.

(** C3 fails: event 1 of the class [Demo.nested] has a body that records
    110; fired on a stopped task, the call returns without the body
    having been entered. *)
Lemma stopped_task_body_not_run :
  running 0 Demo.stopped_task = Some false ∧
  ∃ s', run Demo.nested_only Demo.marking 5
          (CallEvent 0 (Declared 1) (VInt 5)) Demo.stopped_task = Ok s' ∧
        (Body 0 (Declared 1) (VInt 5) ∉ log s') ∧ (Marked 110 ∉ log s').
Proof.
  split; [done|]. eexists. split; [reflexivity|].
  split; apply not_elem_of_nil.
Qed.

Section Transactions.
Context (classes : nat → class_decl) (functions : nat → val → list cmd).

(** [stop] on a running task that adopted nothing. *)
Lemma stop_childless rec t s o :
  tasks s !! t = Some o → _running o = true → _adopted_tasks o = [] →
  stop rec t s = Ok (update t (set_running false) s).
Proof.
  intros Ho Hr Ha. unfold stop, with_task. by rewrite Ho, Hr, Ha.
Qed.

(** Handing a closure to [_run_within_transaction] while no transaction
    is open: the closure is run at once, on the store in which the
    queue has been put back to [None]. *)
Lemma run_within_transaction_closed rec t fn s o :
  tasks s !! t = Some o → _event_signal_queue o = None →
  _run_within_transaction rec t fn s =
  do_call rec {| serial := next_id s; thunk := fn |}
    (closed t (register t fn (opened t s))).
Proof.
  intros Ho Hq. unfold _run_within_transaction, _transaction_context.
  unfold with_task at 1. rewrite Ho, Hq.
  change (update t (set_queue (Some [])) s) with (opened t s).
  rewrite queue_of_register, decide_True by done.
  unfold opened at 2. rewrite queue_of_set_queue, decide_True, Ho by done.
  simpl. by destruct (do_call _ _ _).
Qed.

Lemma run_within_transaction_open rec t fn s q :
  queue_of t s = Some q →
  _run_within_transaction rec t fn s = Ok (register t fn s).
Proof.
  intros Hq. unfold _run_within_transaction, _transaction_context, with_task.
  unfold queue_of in Hq. destruct (tasks s !! t) as [o|]; [|done].
  simpl in Hq. by rewrite Hq.
Qed.

Lemma lookup_closed_register_opened t fn s o :
  tasks s !! t = Some o →
  tasks (closed t (register t fn (opened t s))) !! t =
  Some (set_queue None o).
Proof.
  intros Ho. unfold closed, opened.
  rewrite lookup_update_eq, lookup_register, decide_True by done.
  rewrite lookup_update_eq, Ho. done.
Qed.

End Transactions.

(** C10: [create_success v] returns a future that is stopped, has
    succeeded and holds [v], although nothing is subscribed to it. *)
Theorem create_success_round_trip classes functions n c v s :
  is_future (classes c) = true →
  ∃ s', create_success classes functions (S (S n)) c v s
        = (length (tasks s), Ok s') ∧
        result_of classes (length (tasks s)) s' = Some (inl v) ∧
        succeeded classes (length (tasks s)) s' = Some (inl true) ∧
        running (length (tasks s)) s' = Some false.
Proof.
  intros Hf. unfold create_success.
  pose proof (lookup_new_task c s) as Hn.
  destruct (new_task c s) as [t s0] eqn:Hnew.
  assert (t = length (tasks s)) as <- by (by inversion Hnew).
  simpl in Hn. clear Hnew.
  rewrite run_event_unfold. unfold Event_call, with_task. rewrite Hn. simpl.
  rewrite Hf. unfold _call_method, with_task. simpl. rewrite Hn.
  unfold on_success. rewrite run_stop_unfold.
  erewrite stop_childless; [|by rewrite lookup_update_eq; simpl; rewrite Hn|done..].
  erewrite run_within_transaction_closed;
    [|by rewrite !lookup_update_eq; simpl; rewrite Hn|done].
  unfold do_call, with_task. simpl cl_owner.
  erewrite lookup_closed_register_opened;
    [|by rewrite !lookup_update_eq; simpl; rewrite Hn].
  simpl. eexists. split; [done|].
  unfold result_of, succeeded, running.
  erewrite lookup_closed_register_opened;
    [|by rewrite !lookup_update_eq; simpl; rewrite Hn].
  simpl. by rewrite Hf.
Qed.

Lemma create_success_round_trip_witness :
  ∃ s', create_success Demo.futures_only Demo.marking 2 0 (VInt 42) empty
        = (0, Ok s') ∧
        result_of Demo.futures_only 0 s' = Some (inl (VInt 42)) ∧
        succeeded Demo.futures_only 0 s' = Some (inl true) ∧
        running 0 s' = Some false.
Proof.
  exact (create_success_round_trip Demo.futures_only Demo.marking 0 0
           (VInt 42) empty eq_refl).
Defined.

(** ** [stop] *)

Lemma running_lookup t s o b :
  tasks s !! t = Some o → _running o = b → running t s = Some b.
Proof. intros Ho Hr. unfold running. by rewrite Ho, <- Hr. Qed.

Lemma running_Some t s b :
  running t s = Some b → ∃ o, tasks s !! t = Some o ∧ _running o = b.
Proof.
  unfold running. destruct (tasks s !! t) as [o|]; [|done].
  intros [= <-]. eauto.
Qed.

Lemma stops_self t s o :
  tasks s !! t = Some o → _running o = true →
  stops t s (update t (set_running false) s).
Proof.
  intros Ho Hr. split; [done|]. split; [done|].
  split; [simpl; by rewrite length_alter|].
  intros p o' Hp. rewrite lookup_update. case_decide; [subst|by left].
  right. rewrite Ho in *. simplify_eq. by split; [apply rtc_refl|].
Qed.

Lemma stops_adopts t s s' p c : stops t s s' → adopts s' p c → adopts s p c.
Proof.
  intros (_ & _ & Hl & Ht) (o' & Ho' & Hc).
  destruct (lookup_lt_is_Some_2 (tasks s) p) as [o Ho].
  { rewrite <- Hl. by eapply lookup_lt_Some. }
  exists o. split; [done|].
  destruct (Ht _ _ Ho) as [?|(_ & _ & ?)]; by simplify_eq.
Qed.

Lemma stops_reaches t s s' i p :
  stops t s s' → rtc (adopts s') i p → rtc (adopts s) i p.
Proof.
  intros Hs. induction 1 as [|x y z Hxy _ IH]; [apply rtc_refl|].
  eapply rtc_l; [|done]. by eapply stops_adopts.
Qed.

Lemma stops_child t s s' i s'' :
  stops t s s' → adopts s t i → stops i s' s'' → stops t s s''.
Proof.
  intros Hs Hi Hs'.
  pose proof Hs as (Hl & Hn & Hlen & Ht).
  destruct Hs' as (Hl' & Hn' & Hlen' & Ht').
  split; [congruence|]. split; [congruence|]. split; [congruence|].
  intros p o Ho. destruct (Ht _ _ Ho) as [Hp|(Hr & Hrun & Hp)].
  - destruct (Ht' _ _ Hp) as [?|(Hr' & ? & ?)]; [by left|right].
    split; [|done]. eapply rtc_l; [done|]. by eapply stops_reaches.
  - destruct (Ht' _ _ Hp) as [?|(_ & ? & _)]; [|done]. by right.
Qed.

Lemma stops_running_false t s s' p :
  stops t s s' → running p s = Some false → running p s' = Some false.
Proof.
  intros (_ & _ & _ & Ht) (o & Ho & Hr)%running_Some.
  destruct (Ht _ _ Ho) as [?|(_ & ? & _)]; [|congruence].
  by eapply running_lookup.
Qed.

Lemma stops_refs_ok t s s' : stops t s s' → refs_ok s → refs_ok s'.
Proof.
  intros Hs Hok p c Hpc. pose proof Hs as (_ & _ & Hlen & _).
  rewrite Hlen. apply (Hok p). by eapply stops_adopts.
Qed.

Lemma count_running_le (l l' : list task) :
  length l' = length l →
  (∀ p o, l !! p = Some o →
     l' !! p = Some o ∨ l' !! p = Some (set_running false o)) →
  sum_list_with (λ o, if _running o then 1 else 0) l' ≤
  sum_list_with (λ o, if _running o then 1 else 0) l.
Proof.
  revert l'. induction l as [|o l IH]; intros [|o' l'] Hlen H; simpl in *;
    try done.
  specialize (IH l' ltac:(lia) (λ p, H (S p))).
  destruct (H 0 o eq_refl) as [[= ->]|[= ->]]; simpl; [lia|].
  destruct (_running o); lia.
Qed.

Lemma stops_count t s s' : stops t s s' → count_running s' ≤ count_running s.
Proof.
  intros (_ & _ & Hlen & Ht). apply count_running_le; [done|].
  intros p o Ho. destruct (Ht _ _ Ho) as [?|(_ & _ & ?)]; auto.
Qed.

Lemma count_running_stop (l : list task) t o :
  l !! t = Some o → _running o = true →
  S (sum_list_with (λ o, if _running o then 1 else 0)
       (alter (set_running false) t l)) =
  sum_list_with (λ o, if _running o then 1 else 0) l.
Proof.
  revert t. induction l as [|o' l IH]; intros [|t] Ho Hr; simpl in *;
    try done.
  - simplify_eq. by rewrite Hr.
  - specialize (IH t Ho Hr). unfold alter in IH.
    destruct (_running o'); lia.
Qed.

Section Stop.

Context (classes : nat → class_decl) (functions : nat → val → list cmd).

#[local] Abbreviation run := (run classes functions).

(** What [stop] does, whenever it returns. *)
Lemma stop_partial n t s :
  match run n (CallStop t) s with
  | Ok s' =>
      stops t s s' ∧ running t s = Some true ∧ running t s' = Some false
  | Raised x s' =>
      x = StopOnNonRunning ∧ s' = s ∧ running t s = Some false
  | Timeout | Dangling => True
  end.
Proof.
  revert t s. induction n as [|n IH]; intros t s; [done|].
  rewrite run_stop_unfold. unfold stop, with_task.
  destruct (tasks s !! t) as [o|] eqn:Ho; [|done].
  destruct (_running o) eqn:Hr; simpl;
    [|by split; [|split; [|eapply running_lookup]]].
  pose proof (stops_self _ _ _ Ho Hr) as Hs0.
  assert (running t (update t (set_running false) s) = Some false) as Hr0.
  { eapply running_lookup; [by rewrite lookup_update_eq, Ho|done]. }
  assert (∀ i, i ∈ _adopted_tasks o → adopts s t i) as Hl by (by exists o).
  revert Hs0 Hr0 Hl.
  generalize (update t (set_running false) s) as sj.
  generalize (_adopted_tasks o) as l.
  induction l as [|i l IHl]; intros sj Hs Hrj Hl; simpl.
  { split; [done|]. split; [by eapply running_lookup|done]. }
  unfold with_task. destruct (tasks sj !! i) as [oi|] eqn:Hi; [|done].
  destruct (_running oi) eqn:Hri.
  - specialize (IH i sj). destruct (run n (CallStop i) sj) as [s''|x s''| |];
      try done.
    + destruct IH as (Hs' & _ & _). apply IHl.
      * eapply stops_child; [done| |done]. apply Hl. by left.
      * by eapply stops_running_false.
      * intros. apply Hl. by right.
    + destruct IH as (_ & _ & Hf).
      pose proof (running_lookup _ _ _ _ Hi Hri). congruence.
  - apply IHl; [done..|]. intros. apply Hl. by right.
Qed.

(** [stop] on a running task returns, given one unit of fuel for every
    running task. *)
Lemma stop_total n t s o :
  refs_ok s → tasks s !! t = Some o → _running o = true →
  count_running s ≤ n →
  ∃ s', run n (CallStop t) s = Ok s'.
Proof.
  revert t s o. induction n as [|n IH]; intros t s o Hok Ho Hr Hn.
  { pose proof (count_running_stop _ _ _ Ho Hr) as Hc.
    unfold count_running in Hn. lia. }
  rewrite run_stop_unfold. unfold stop, with_task. rewrite Ho, Hr. simpl.
  pose proof (stops_self _ _ _ Ho Hr) as Hs0.
  assert (count_running (update t (set_running false) s) ≤ n) as Hn0.
  { pose proof (count_running_stop _ _ _ Ho Hr) as Hc.
    unfold count_running in *. simpl. lia. }
  assert (refs_ok (update t (set_running false) s)) as Hok0
    by (by eapply stops_refs_ok).
  assert (∀ i, i ∈ _adopted_tasks o →
            i < length (tasks (update t (set_running false) s))) as Hl.
  { intros i Hi. destruct Hs0 as (_ & _ & -> & _). apply (Hok t).
    by exists o. }
  clear Hs0. revert Hn0 Hok0 Hl.
  generalize (update t (set_running false) s) as sj.
  generalize (_adopted_tasks o) as l. clear Ho Hr Hn Hok.
  induction l as [|i l IHl]; intros sj Hn Hok Hl; simpl; [eauto|].
  unfold with_task.
  destruct (lookup_lt_is_Some_2 (tasks sj) i) as [oi Hi].
  { apply Hl. by left. }
  rewrite Hi. destruct (_running oi) eqn:Hri.
  - destruct (IH i sj oi Hok Hi Hri Hn) as [s'' Hs''].
    pose proof (stop_partial n i sj) as Hp. rewrite Hs'' in *.
    destruct Hp as (Hst & _ & _). apply IHl.
    + pose proof (stops_count _ _ _ Hst). lia.
    + by eapply stops_refs_ok.
    + intros j Hj. destruct Hst as (_ & _ & -> & _). apply Hl. by right.
  - apply IHl; [done..|]. intros. apply Hl. by right.
Qed.

End Stop.

(** C8: the running flag falls once.  [stop] on a running task returns
    and leaves it stopped (one unit of fuel per running task is enough);
    [stop] on a task that is not running raises and changes nothing; and
    whatever is called afterwards, and whatever is constructed, a task
    that is not running stays so. *)
Theorem running_falls_once classes functions :
  (∀ n t s, refs_ok s → running t s = Some true → count_running s ≤ n →
     ∃ s', run classes functions n (CallStop t) s = Ok s' ∧
           running t s' = Some false) ∧
  (∀ n t s, running t s = Some false →
     run classes functions (S n) (CallStop t) s = Raised StopOnNonRunning s) ∧
  (∀ n c s t, running t s = Some false →
     ensures (λ s', running t s' = Some false) (run classes functions n c s)) ∧
  (∀ c s t, running t s = Some false →
     running t (new_task c s).2 = Some false).
Proof.
  split; [|split; [|split]].
  - intros n t s Hok (o & Ho & Hr)%running_Some Hn.
    destruct (stop_total classes functions n t s o Hok Ho Hr Hn) as [s' Hs'].
    exists s'. split; [done|].
    pose proof (stop_partial classes functions n t s) as Hp.
    rewrite Hs' in Hp. tauto.
  - intros n t s (o & Ho & Hr)%running_Some.
    rewrite run_stop_unfold. unfold stop, with_task. by rewrite Ho, Hr.
  - intros n c s t (o & Ho & Hr)%running_Some.
    eapply ensures_impl; [|apply run_lawful].
    intros s' [(_ & _ & _ & Ht) _].
    destruct (Ht _ _ Ho) as (o' & Ho' & _ & Hf).
    destruct (Hf Hr) as (Hr' & _). by eapply running_lookup.
  - intros c s t (o & Ho & Hr)%running_Some.
    eapply running_lookup; [|done]. simpl. by apply lookup_app_l_Some.
Qed.

Lemma refs_ok_one_task : refs_ok Demo.one_task.
Proof.
  intros p c (o & Ho & Hc). destruct p as [|p]; [|done].
  injection Ho as <-. by apply elem_of_nil in Hc.
Defined.

Lemma running_falls_once_witness :
  (∃ s', run Demo.nested_only Demo.marking 1 (CallStop 0) Demo.one_task
         = Ok s' ∧ running 0 s' = Some false) ∧
  run Demo.nested_only Demo.marking 1 (CallStop 0) Demo.stopped_task
    = Raised StopOnNonRunning Demo.stopped_task ∧
  ensures (λ s', running 0 s' = Some false)
    (run Demo.nested_only Demo.marking 3 (CallEvent 0 (Declared 1) VNone)
       Demo.stopped_task) ∧
  running 0 (new_task 0 Demo.stopped_task).2 = Some false.
Proof.
  pose proof (running_falls_once Demo.nested_only Demo.marking)
    as (H1 & H2 & H3 & H4).
  split; [|split; [|split]].
  - apply H1; [apply refs_ok_one_task|reflexivity|].
    unfold count_running. simpl. lia.
  - by apply H2.
  - by apply H3.
  - by apply H4.
Defined.

(** ** Failure and adoption *)




Lemma adopts_ext s s' :
  (∀ t, _adopted_tasks <$> tasks s' !! t = _adopted_tasks <$> tasks s !! t) →
  ∀ p c, adopts s' p c → adopts s p c.
Proof.
  intros H p c (o' & Ho' & Hc). specialize (H p). rewrite Ho' in H.
  destruct (tasks s !! p) as [o|] eqn:Ho; [|done].
  exists o. split; [done|]. simpl in H. congruence.
Qed.

Section Failure.

Context (classes : nat → class_decl) (functions : nat → val → list cmd).

#[local] Abbreviation run := (run classes functions).




End Failure.

Lemma tasks_emit x s : tasks (emit x s) = tasks s.
Proof. done. Qed.

Lemma lookup_closed_register_opened_ne t fn s t' :
  t ≠ t' →
  tasks (closed t (register t fn (opened t s))) !! t' = tasks s !! t'.
Proof.
  intros. unfold closed, opened.
  by rewrite lookup_update_ne, lookup_register, decide_False,
    lookup_update_ne by done.
Qed.

(** ** Termination of the failure path *)

Lemma count_running_ext s s' :
  (_running <$> tasks s') = (_running <$> tasks s) →
  count_running s' = count_running s.
Proof.
  unfold count_running. generalize (tasks s) as l. generalize (tasks s') as l'.
  induction l' as [|o' l' IH]; intros [|o l] H; simpl in *; try done.
  injection H as H1 H2. by rewrite (IH l H2), H1.
Qed.

Lemma running_alter_keep (f : task → task) t (l : list task) :
  (∀ o, _running (f o) = _running o) →
  (_running <$> alter f t l) = (_running <$> l).
Proof.
  intros Hf. apply list_eq. intros j. rewrite !list_lookup_fmap.
  rewrite list_lookup_alter. case_decide; [subst|done].
  destruct (l !! j); simpl; by rewrite ?Hf.
Qed.

Lemma count_running_update t f s :
  (∀ o, _running (f o) = _running o) →
  count_running (update t f s) = count_running s.
Proof. intros. apply count_running_ext. simpl. by apply running_alter_keep. Qed.



Lemma refs_ok_ext s s' :
  length (tasks s') = length (tasks s) →
  (∀ t, _adopted_tasks <$> tasks s' !! t = _adopted_tasks <$> tasks s !! t) →
  refs_ok s → refs_ok s'.
Proof.
  intros Hlen H Hok p c Hpc. rewrite Hlen. apply (Hok p).
  by eapply adopts_ext.
Qed.

Lemma refs_ok_update t f s :
  (∀ o, _adopted_tasks (f o) = _adopted_tasks o) →
  refs_ok s → refs_ok (update t f s).
Proof.
  intros Hf. apply refs_ok_ext; simpl; [by rewrite length_alter|].
  intros j. rewrite list_lookup_alter. case_decide; [subst|done].
  destruct (tasks s !! j); simpl; by rewrite ?Hf.
Qed.


Lemma refs_ok_emit x s : refs_ok s → refs_ok (emit x s).
Proof. done. Qed.

Section Termination.

Context (classes : nat → class_decl) (functions : nat → val → list cmd).

#[local] Abbreviation run := (run classes functions).

Lemma exec_marks rec ms s :
  ∃ s', for_each (exec_cmd classes rec) (Mark <$> ms) s = Ok s' ∧
        tasks s' = tasks s.
Proof.
  revert s. induction ms as [|m ms IH]; intros s; [by exists s|].
  rewrite fmap_cons. cbn [for_each exec_cmd].
  destruct (IH (emit (Marked m) s)) as (s' & -> & Hs'). by exists s'.
Qed.

Lemma notify_passive n c l s :
  Forall (passive functions) l →
  ∃ s', for_each (notify (run (S n)) c) l s = Ok s' ∧ tasks s' = tasks s.
Proof.
  intros Hl. revert s. induction Hl as [|i l (f & -> & Hf) _ IH]; intros s;
    [by exists s|].
  cbn [for_each]. unfold notify at 1, call_handler.
  rewrite run_function_unfold.
  destruct (Hf (cl_arg (thunk c))) as [ms ->].
  destruct (exec_marks (run n) ms (emit (Notify c (HFun f)) s))
    as (s1 & -> & Hs1).
  destruct (IH s1) as (s' & -> & Hs'). exists s'. split; [done|].
  by rewrite Hs', Hs1.
Qed.


End Termination.



Section Cascade.

Context (classes : nat → class_decl) (functions : nat → val → list cmd).





End Cascade.


Lemma refs_ok_watched : refs_ok Demo.watched.
Proof.
  intros p c (o & Ho & Hc).
  destruct p as [|[|p]]; [| |done]; injection Ho as <-;
    by apply elem_of_nil in Hc.
Defined.





(** ** Traces *)

Lemma steady_log s s' : steady s s' → log s' = log s ++ added s s'.
Proof.
  intros (_ & _ & [l Hl] & _). unfold added. rewrite Hl.
  by rewrite drop_app_length.
Qed.

Lemma added_app s s' l : log s' = log s ++ l → added s s' = l.
Proof. intros Hl. unfold added. rewrite Hl. by rewrite drop_app_length. Qed.


Lemma added_trans s1 s2 s3 :
  steady s1 s2 → steady s2 s3 →
  added s1 s3 = added s1 s2 ++ added s2 s3.
Proof.
  intros H12 H23. apply added_app.
  by rewrite (steady_log _ _ H23), (steady_log _ _ H12), app_assoc.
Qed.

Lemma added_emit x s : added s (emit x s) = [x].
Proof. by apply added_app. Qed.

Lemma added_update t f s : added s (update t f s) = [].
Proof. apply added_app. simpl. by rewrite app_nil_r. Qed.

Lemma added_register t fn s :
  added s (register t fn s) =
  [Registered {| serial := next_id s; thunk := fn |}].
Proof. by apply added_app. Qed.

Lemma notified_app k l1 l2 :
  notified k (l1 ++ l2) = notified k l1 ++ notified k l2.
Proof. apply omap_app. Qed.

Lemma registered_app t l1 l2 :
  registered t (l1 ++ l2) = registered t l1 ++ registered t l2.
Proof. apply omap_app. Qed.


Lemma silent_nil t : silent t [].
Proof. intros c i Hc. by apply elem_of_nil in Hc. Qed.

Lemma silent_app t l1 l2 : silent t l1 → silent t l2 → silent t (l1 ++ l2).
Proof. intros H1 H2 c i [?|?]%elem_of_app; eauto. Qed.

Lemma notified_fresh k l :
  (∀ c i, Notify c i ∈ l → serial c ≠ k) → notified k l = [].
Proof.
  induction l as [|x l IH]; intros H; [done|].
  change (x :: l) with ([x] ++ l). rewrite notified_app, IH.
  - destruct x as [| |c i|]; try done.
    unfold notified. simpl. rewrite decide_False; [done|].
    apply (H c i). by left.
  - intros c i Hc. apply (H c i). by right.
Qed.

(** ** Well-formed queues *)

Lemma wf_weaken s s' :
  next_id s ≤ next_id s' →
  (∀ t q', queue_of t s' = Some q' → q' = [] ∨ queue_of t s = Some q') →
  (∀ c i, Notify c i ∈ log s' →
     Notify c i ∈ log s ∨ serial c < next_id s') →
  wf s → wf s'.
Proof.
  intros Hn Hq Hl (H1 & H2 & H3 & H4).
  split; [|split; [|split]].
  - intros t q c Hqt Hc.
    destruct (Hq _ _ Hqt) as [->|Hqs]; [by apply elem_of_nil in Hc|].
    destruct (H1 _ _ _ Hqs Hc). split; [done|lia].
  - intros t q Hqt.
    destruct (Hq _ _ Hqt) as [->|Hqs]; [apply NoDup_nil_2|eauto].
  - intros t t' q q' c c' Hqt Hqt' Hc Hc'.
    destruct (Hq _ _ Hqt) as [->|Hqs]; [by apply elem_of_nil in Hc|].
    destruct (Hq _ _ Hqt') as [->|Hqs']; [by apply elem_of_nil in Hc'|].
    eauto.
  - intros c i Hc. destruct (Hl _ _ Hc) as [Hc'|?]; [|done].
    specialize (H4 _ _ Hc'). lia.
Qed.

Lemma queue_of_task_mut s t o o' t' :
  tasks s !! t = Some o → task_mut o o' →
  queue_of t' (update t (λ _, o') s) = queue_of t' s.
Proof.
  intros Ho Hm. destruct (task_mut_facts _ _ Hm) as (_ & Hq & _).
  rewrite queue_of_update. case_decide; [subst|done].
  unfold queue_of. by rewrite Ho.
Qed.

Lemma wf_mut s s' : mut s s' → wf s → wf s'.
Proof.
  destruct 1 as [s t o o' Ho Hm _|s t e a o _ _|s m|s t q fn Hq Hfn].
  - apply wf_weaken; simpl; [done| |auto].
    intros t' q'. rewrite (queue_of_task_mut _ _ _ _ _ Ho Hm). auto.
  - apply wf_weaken; simpl; [done|auto|].
    intros c i [?|[=]%list_elem_of_singleton]%elem_of_app. auto.
  - apply wf_weaken; simpl; [done|auto|].
    intros c i [?|[=]%list_elem_of_singleton]%elem_of_app. auto.
  - intros (H1 & H2 & H3 & H4).
    set (c0 := {| serial := next_id s; thunk := fn |}).
    assert (∀ t' q' c, queue_of t' (register t fn s) = Some q' → c ∈ q' →
              (∃ q0, queue_of t' s = Some q0 ∧ c ∈ q0) ∨ (t' = t ∧ c = c0))
      as Hcase.
    { intros t' q' c. rewrite queue_of_register. case_decide; [subst t'|].
      - rewrite Hq. simpl. intros [= <-].
        intros [Hc| ->%list_elem_of_singleton]%elem_of_app; eauto.
      - eauto. }
    split; [|split; [|split]].
    + intros t' q' c Hq' Hc. simpl.
      destruct (Hcase _ _ _ Hq' Hc) as [(q0 & Hq0 & Hc0)|[-> ->]].
      * destruct (H1 _ _ _ Hq0 Hc0). split; [done|lia].
      * split; [done|simpl; lia].
    + intros t' q'. rewrite queue_of_register. case_decide; [subst t'|eauto].
      rewrite Hq. simpl. intros [= <-]. rewrite fmap_app. apply NoDup_app.
      split; [eauto|]. split; [|apply NoDup_singleton].
      intros k (c & -> & Hc)%list_elem_of_fmap [=]%list_elem_of_singleton.
      destruct (H1 _ _ _ Hq Hc). lia.
    + intros t1 t2 q1 q2 c1 c2 Hq1 Hq2 Hc1 Hc2 Heq.
      destruct (Hcase _ _ _ Hq1 Hc1) as [(q1' & Hq1' & Hc1')|[-> ->]];
        destruct (Hcase _ _ _ Hq2 Hc2) as [(q2' & Hq2' & Hc2')|[-> ->]];
        try done.
      * eauto.
      * destruct (H1 _ _ _ Hq1' Hc1'). simpl in *. lia.
      * destruct (H1 _ _ _ Hq2' Hc2'). simpl in *. lia.
    + simpl. intros c i [Hc|[=]%list_elem_of_singleton]%elem_of_app.
      specialize (H4 _ _ Hc). lia.
Qed.

Lemma wf_open t s : wf s → wf (opened t s).
Proof.
  apply wf_weaken; simpl; [done| |auto].
  intros t' q'. unfold opened. rewrite queue_of_set_queue.
  case_decide; [subst|auto]. destruct (tasks s !! t'); [|done].
  intros [= <-]. auto.
Qed.

Lemma wf_close t s : wf s → wf (closed t s).
Proof.
  apply wf_weaken; simpl; [done| |auto].
  intros t' q'. unfold closed. rewrite queue_of_set_queue.
  case_decide; [subst|auto]. by destruct (tasks s !! t').
Qed.

Lemma wf_notify c i s : serial c < next_id s → wf s → wf (emit (Notify c i) s).
Proof.
  intros Hc. apply wf_weaken; simpl; [done|auto|].
  intros c' i' [?|[= -> ->]%list_elem_of_singleton]%elem_of_app; auto.
Qed.

Section WellFormed.

Context (classes : nat → class_decl) (functions : nat → val → list cmd).

Lemma wf_logic : logic wf lawful.
Proof.
  split.
  - reflexivity.
  - intros s1 s2 s3. apply transitivity.
  - intros s s' Hm Hwf. split; [by eapply wf_mut|by apply lawful_mut].
  - intros s t Hwf _ _. by apply wf_open.
  - intros s t s' _ Hq Hwf Hl. split; [by apply wf_close|by apply lawful_close].
  - intros s t s' q c _ _ Hwf _ Hq Hc s1 i Hwf1 [(_ & Hn & _) _].
    split; [|apply lawful_emit]. apply wf_notify; [|done].
    destruct Hwf as (H1 & _). destruct (H1 _ _ _ Hq Hc) as [_ ?].
    simpl in Hn. lia.
Qed.

(** Every call keeps the queues well formed. *)
Theorem run_wf n c s :
  wf s → ensures (λ s', wf s' ∧ lawful s s') (run classes functions n c s).
Proof. intros. by apply run_sound; [apply wf_logic|]. Qed.

End WellFormed.

(** ** Closures that wait in no queue are not run *)

Lemma absent_weaken k s s' :
  next_id s ≤ next_id s' →
  (∀ t q', queue_of t s' = Some q' → q' = [] ∨ queue_of t s = Some q') →
  absent k s → absent k s'.
Proof.
  intros Hn Hq [Hk Ha]. split; [lia|]. intros t q' Hq'.
  destruct (Hq _ _ Hq') as [->|?]; [apply not_elem_of_nil|eauto].
Qed.

Lemma absent_emit k x s : absent k s → absent k (emit x s).
Proof. apply absent_weaken; simpl; auto. Qed.

Lemma absent_logic k : logic (absent k) (unnotified k).
Proof.
  split.
  - done.
  - unfold unnotified. congruence.
  - intros s s' Hm Ha.
    destruct Hm as [s t o o' Ho Hm _|s t e a o _ _|s m|s t q fn Hq Hfn].
    + split; [|done]. revert Ha. apply absent_weaken; simpl; [done|].
      intros t' q'. rewrite (queue_of_task_mut _ _ _ _ _ Ho Hm). auto.
    + split; [by apply absent_emit|]. unfold unnotified. simpl.
      by rewrite notified_app, app_nil_r.
    + split; [by apply absent_emit|]. unfold unnotified. simpl.
      by rewrite notified_app, app_nil_r.
    + destruct Ha as [Hk Ha]. split; [|unfold unnotified; simpl;
        by rewrite notified_app, app_nil_r].
      split; [simpl; lia|]. intros t' q'. rewrite queue_of_register.
      case_decide; [subst t'|by eauto]. rewrite Hq. simpl. intros [= <-].
      rewrite fmap_app. apply not_elem_of_app. split; [eauto|].
      simpl. intros [=]%list_elem_of_singleton. lia.
  - intros s t Ha _ _. revert Ha. apply absent_weaken; simpl; [done|].
    intros t' q'. unfold opened. rewrite queue_of_set_queue.
    case_decide; [subst|auto]. destruct (tasks s !! t'); [|done].
    intros [= <-]. auto.
  - intros s t s' _ _ Ha Hu. split; [|done].
    revert Ha. apply absent_weaken; simpl; [done|].
    intros t' q'. unfold closed. rewrite queue_of_set_queue.
    case_decide; [subst|auto]. by destruct (tasks s' !! t').
  - intros s t s' q c _ _ [_ Ha] _ Hq Hc s1 i Ha1 _.
    split; [by apply absent_emit|]. unfold unnotified. simpl.
    rewrite notified_app. unfold notified at 2. simpl.
    rewrite decide_False, app_nil_r; [done|]. intros <-.
    apply (Ha _ _ Hq). by apply list_elem_of_fmap_2.
Qed.

Section Pass.

Context (classes : nat → class_decl) (functions : nat → val → list cmd).

#[local] Abbreviation run := (run classes functions).

Lemma call_handler_absent n k i a s :
  absent k s →
  ensures (λ s', absent k s' ∧ unnotified k s s')
    (call_handler (run n) i a s).
Proof.
  intros Ha. destruct i; simpl; by apply run_sound; [apply absent_logic|].
Qed.

(** One turn of the loop of the pass of [c]. *)
Lemma notify_pass n c i s :
  absent (serial c) s →
  ensures (λ s', absent (serial c) s' ∧
             notified (serial c) (log s') = notified (serial c) (log s) ++ [i])
    (notify (run n) c i s).
Proof.
  intros Ha. unfold notify.
  pose proof (call_handler_absent n (serial c) i (cl_arg (thunk c))
                (emit (Notify c i) s) (absent_emit _ _ _ Ha)) as Hh.
  assert (notified (serial c) (log (emit (Notify c i) s)) =
          notified (serial c) (log s) ++ [i]) as Hn.
  { simpl. rewrite notified_app. unfold notified at 2. simpl.
    by rewrite decide_True. }
  unfold unnotified in Hh. rewrite Hn in Hh.
  destruct (call_handler _ _ _ _); [done| |done..].
  by destruct (is_Exception _).
Qed.

(** The loop of the pass of [c] over the list [l]: it calls the elements
    of [l] in order, up to the first that raises. *)
Lemma notify_all_pass n c l s :
  absent (serial c) s →
  match for_each (notify (run n) c) l s with
  | Ok s' =>
      absent (serial c) s' ∧
      notified (serial c) (log s') = notified (serial c) (log s) ++ l
  | Raised x s' =>
      absent (serial c) s' ∧
      ∃ l1 i l2 s1 x0,
        l = l1 ++ i :: l2 ∧
        notified (serial c) (log s') = notified (serial c) (log s) ++ l1 ++ [i] ∧
        call_handler (run n) i (cl_arg (thunk c)) (emit (Notify c i) s1)
          = Raised x0 s' ∧
        x = (if is_Exception x0 then EventHandlerException i x0 else x0)
  | Timeout | Dangling => True
  end.
Proof.
  revert s. induction l as [|i l IH]; intros s Ha; simpl.
  { by rewrite app_nil_r. }
  pose proof (notify_pass n c i s Ha) as Hi.
  destruct (notify (run n) c i s) as [s1|x s1| |] eqn:Hn; [| |done..].
  - destruct Hi as [Ha1 Hn1]. specialize (IH s1 Ha1).
    destruct (for_each _ l s1) as [s'|x s'| |]; [| |done..].
    + destruct IH as [? ->]. split; [done|]. by rewrite Hn1, <- app_assoc.
    + destruct IH as (? & l1 & j & l2 & s2 & x0 & -> & -> & ? & ?).
      split; [done|]. exists (i :: l1), j, l2, s2, x0.
      split; [done|]. split; [|done]. by rewrite Hn1, <- !app_assoc.
  - destruct Hi as [Ha1 Hn1]. split; [done|].
    unfold notify in Hn.
    destruct (call_handler _ _ _ _) as [|x0 s0| |] eqn:Hh; try done.
    exists [], i, l, s, x0. split; [done|]. split; [done|].
    destruct (is_Exception x0); simplify_eq; by split.
Qed.

Lemma subscribers_of_lookup t e s o :
  tasks s !! t = Some o → subscribers_of t e s = _subscribers o e.
Proof. intros Ho. unfold subscribers_of. by rewrite Ho. Qed.

(** The pass of [c] calls the subscribers present when it starts. *)
Lemma do_call_pass n c s :
  absent (serial c) s →
  match do_call (run n) c s with
  | Ok s' =>
      absent (serial c) s' ∧
      notified (serial c) (log s') =
      notified (serial c) (log s) ++
      subscribers_of (cl_owner (thunk c)) (cl_event (thunk c)) s
  | Raised x s' =>
      absent (serial c) s' ∧
      ∃ l1 i l2 s1 x0,
        subscribers_of (cl_owner (thunk c)) (cl_event (thunk c)) s
          = l1 ++ i :: l2 ∧
        notified (serial c) (log s') = notified (serial c) (log s) ++ l1 ++ [i] ∧
        call_handler (run n) i (cl_arg (thunk c)) (emit (Notify c i) s1)
          = Raised x0 s' ∧
        x = (if is_Exception x0 then EventHandlerException i x0 else x0)
  | Timeout | Dangling => True
  end.
Proof.
  intros Ha. unfold do_call, with_task.
  destruct (tasks s !! _) as [o|] eqn:Ho; [|done].
  rewrite (subscribers_of_lookup _ _ _ _ Ho). by apply notify_all_pass.
Qed.

End Pass.

Section Events.

Context (classes : nat → class_decl) (functions : nat → val → list cmd).

#[local] Abbreviation run := (run classes functions).

Lemma call_method_wf n t e a s o :
  wf s → tasks s !! t = Some o → _running o = true →
  ensures (λ s', wf s' ∧ lawful s s')
    (_call_method classes (run n) t e a s).
Proof.
  intros Hwf Ho Hr.
  apply (call_method_sound classes wf lawful wf_logic (run n)); eauto.
  intros. by apply run_sound; [apply wf_logic|].
Qed.

Lemma exec_wf n l s :
  wf s →
  ensures (λ s', wf s' ∧ lawful s s')
    (for_each (exec_cmd classes (run n)) l s).
Proof.
  intros Hwf.
  apply (exec_sound classes wf lawful wf_logic (run n)); eauto.
  intros. by apply run_sound; [apply wf_logic|].
Qed.

Lemma balanced_closed s s' t :
  balanced s s' → queue_of t s = None → queue_of t s' = None.
Proof. intros Hb Hq. specialize (Hb t). by rewrite Hq in Hb. Qed.

Lemma balanced_open s s' t q :
  balanced s s' → queue_of t s = Some q →
  ∃ q', queue_of t s' = Some (q ++ q').
Proof. intros Hb Hq. specialize (Hb t). by rewrite Hq in Hb. Qed.

Lemma queue_of_lookup t s o :
  tasks s !! t = Some o → queue_of t s = _event_signal_queue o.
Proof. intros Ho. unfold queue_of. by rewrite Ho. Qed.

Lemma queue_of_None_lookup t s :
  is_Some (tasks s !! t) → queue_of t s = None →
  ∃ o, tasks s !! t = Some o ∧ _event_signal_queue o = None.
Proof.
  intros [o Ho] Hq. exists o. split; [done|].
  by rewrite <- (queue_of_lookup _ _ _ Ho).
Qed.

Lemma steady_is_Some s s' t :
  steady s s' → is_Some (tasks s !! t) → is_Some (tasks s' !! t).
Proof.
  intros (_ & _ & _ & Ht) [o Ho]. destruct (Ht _ _ Ho) as (o' & -> & _).
  eauto.
Qed.

(** The closure that was just registered with its own serial, on a store
    whose transaction is closed again, waits in no queue. *)
Lemma absent_fresh t fn s :
  wf s → queue_of t s = None →
  absent (next_id s) (closed t (register t fn (opened t s))).
Proof.
  intros (H1 & _) Hq. split; [simpl; lia|].
  intros t' q'. unfold closed, opened.
  rewrite queue_of_set_queue. case_decide; [subst t'|].
  { by destruct (tasks _ !! t). }
  rewrite queue_of_register, decide_False, queue_of_update_ne by done.
  intros Hq' (c & Hk & Hc)%list_elem_of_fmap.
  destruct (H1 _ _ _ Hq' Hc). lia.
Qed.

Lemma subscribers_of_closed_register_opened t fn s t' e :
  subscribers_of t' e (closed t (register t fn (opened t s))) =
  subscribers_of t' e s.
Proof.
  unfold subscribers_of. destruct (decide (t = t')) as [<-|Hne].
  - unfold closed, opened.
    rewrite lookup_update_eq, lookup_register, decide_True, lookup_update_eq
      by done.
    by destruct (tasks s !! t).
  - by rewrite lookup_closed_register_opened_ne.
Qed.

(** An event fired while its task has no transaction open: the body
    runs, then the pass of a closure that nobody else holds, over the
    subscribers present at that moment. *)
Lemma event_outside_transaction n t e a s o s' :
  wf s → tasks s !! t = Some o → _running o = true →
  _event_signal_queue o = None →
  run (S n) (CallEvent t e a) s = Ok s' →
  ∃ s1, _call_method classes (run n) t e a (emit (Body t e a) s) = Ok s1 ∧
        notified (next_id s1) (log s') = subscribers_of t e s1 ∧
        absent (next_id s1) s' ∧ wf s' ∧ lawful s s'.
Proof.
  intros Hwf Ho Hr Hq Hrun.
  pose proof (run_wf classes functions (S n) (CallEvent t e a) s Hwf) as Hend.
  rewrite Hrun in Hend. simpl in Hend.
  rewrite run_event_unfold in Hrun. unfold Event_call, with_task in Hrun.
  rewrite Ho, Hr in Hrun.
  destruct (has_event _ _); [|done].
  assert (wf (emit (Body t e a) s)) as Hwf0.
  { eapply wf_mut; [|done]. by eapply mut_body. }
  pose proof (call_method_wf n t e a _ o Hwf0 Ho Hr) as Hbody.
  destruct (_call_method _ _ _ _ _ _) as [s1| | |]; [|done..].
  exists s1. split; [done|]. destruct Hbody as [Hwf1 [Hst Hb]].
  cut (notified (next_id s1) (log s') = subscribers_of t e s1 ∧
       absent (next_id s1) s'); [tauto|].
  assert (queue_of t s1 = None) as Hq1.
  { eapply balanced_closed; [done|]. by rewrite queue_of_emit,
      (queue_of_lookup _ _ _ Ho). }
  destruct (queue_of_None_lookup t s1) as (o1 & Ho1 & Hqo1); [|done|].
  { eapply steady_is_Some; [done|]. simpl. eauto. }
  rewrite (run_within_transaction_closed _ _ _ _ _ Ho1 Hqo1) in Hrun.
  set (fn := {| cl_owner := t; cl_event := e; cl_arg := a |}) in *.
  pose proof (do_call_pass classes functions n
                {| serial := next_id s1; thunk := fn |} _
                (absent_fresh t fn s1 Hwf1 Hq1)) as Hpass.
  rewrite Hrun in Hpass. cbn [serial thunk cl_owner cl_event fn] in Hpass.
  destruct Hpass as [Habs ->]. split; [|done].
  rewrite subscribers_of_closed_register_opened.
  change (log (closed t (register t fn (opened t s1))))
    with (log s1 ++ [Registered {| serial := next_id s1; thunk := fn |}]).
  rewrite notified_app, notified_fresh; [done|].
  intros c i Hc Hk. destruct Hwf1 as (_ & _ & _ & H4).
  specialize (H4 _ _ Hc). lia.
Qed.

(** An event fired while its task has a transaction open: the body
    runs, and the closure is only put in the queue. *)
Lemma event_inside_transaction n t e a s o q :
  tasks s !! t = Some o → _event_signal_queue o = Some q →
  _running o = true → has_event (classes (cls o)) e = true →
  run (S n) (CallEvent t e a) s =
  match _call_method classes (run n) t e a (emit (Body t e a) s) with
  | Ok s1 =>
      Ok (register t {| cl_owner := t; cl_event := e; cl_arg := a |} s1)
  | r => r
  end.
Proof.
  intros Ho Hq Hr He. rewrite run_event_unfold.
  unfold Event_call, with_task. rewrite Ho, Hr, He.
  pose proof (call_method_sound classes (λ _, True) lawful lawful_logic
                (run n) (λ c s _, run_sound classes functions _ _
                                    lawful_logic n c s I)
                t e a (emit (Body t e a) s) I
                (ex_intro _ o (conj Ho Hr))) as Hbody.
  destruct (_call_method _ _ _ _ _ _) as [s1| | |]; [|done..].
  destruct Hbody as [_ [_ Hb]].
  destruct (balanced_open _ _ t q Hb) as [q' Hq'].
  { by rewrite queue_of_emit, (queue_of_lookup _ _ _ Ho). }
  by erewrite run_within_transaction_open.
Qed.

End Events.

(** ** Events of a task with an open transaction only queue up *)

Lemma in_transaction_other T t s :
  is_Some (queue_of T s) → queue_of t s = None → t ≠ T.
Proof. intros [q Hq] Ht ->. congruence. Qed.

Lemma awaiting_intro T s s' l :
  log s' = log s ++ l →
  (∀ q, queue_of T s = Some q → queue_of T s' = Some (q ++ registered T l)) →
  silent T l →
  awaiting T s s'.
Proof.
  intros Hl Hq Hs q Hqs. rewrite (added_app _ _ _ Hl). split; eauto.
Qed.

Lemma registered_singleton T c :
  registered T [Registered c] =
  if decide (cl_owner (thunk c) = T) then [c] else [].
Proof. unfold registered. simpl. by case_decide. Qed.

Lemma deferring_logic T : logic (in_transaction T) (deferring T).
Proof.
  split.
  - intros s. split; [reflexivity|].
    apply (awaiting_intro T s s []); [by rewrite app_nil_r| |apply silent_nil].
    intros q ->. by rewrite app_nil_r.
  - intros s1 s2 s3 [Hl12 Ha12] [Hl23 Ha23].
    split; [by etrans|]. intros q Hq.
    destruct (Ha12 _ Hq) as [Hq2 Hs2]. destruct (Ha23 _ Hq2) as [Hq3 Hs3].
    destruct Hl12 as [Hst12 _]. destruct Hl23 as [Hst23 _].
    rewrite (added_trans _ _ _ Hst12 Hst23), registered_app, app_assoc.
    split; [done|by apply silent_app].
  - intros s s' Hm [Hwf Hin]. pose proof (lawful_mut _ _ Hm) as Hl.
    split; [split; [by eapply wf_mut|]|split; [done|]].
    { destruct Hin as [q Hq]. destruct Hl as [_ Hb].
      destruct (balanced_open _ _ _ _ Hb Hq). eauto. }
    destruct Hm as [s t o o' Ho Hm _|s t e a o _ _|s m|s t q fn Hq Hfn].
    + apply (awaiting_intro _ _ _ []); simpl;
        [by rewrite app_nil_r| |apply silent_nil].
      intros q. rewrite (queue_of_task_mut _ _ _ _ _ Ho Hm).
      intros ->. by rewrite app_nil_r.
    + apply (awaiting_intro _ _ _ [Body t e a]); [done| |].
      * intros q Hq. rewrite queue_of_emit, Hq. by rewrite app_nil_r.
      * by intros c i [=]%list_elem_of_singleton.
    + apply (awaiting_intro _ _ _ [Marked m]); [done| |].
      * intros q Hq. rewrite queue_of_emit, Hq. by rewrite app_nil_r.
      * by intros c i [=]%list_elem_of_singleton.
    + apply (awaiting_intro _ _ _
               [Registered {| serial := next_id s; thunk := fn |}]);
        [done| |by intros c i [=]%list_elem_of_singleton].
      intros q0. rewrite queue_of_register, registered_singleton.
      cbn [thunk]. subst t. case_decide as Ht.
      * rewrite Ht. by intros ->.
      * intros ->. by rewrite app_nil_r.
  - intros s t [Hwf Hin] Hq _. split; [by apply wf_open|].
    unfold opened. rewrite queue_of_update_ne; [done|].
    apply (in_transaction_other T t s Hin Hq).
  - intros s t s' [Hwf Hin] Hq [Hwf' Hin'] [Hl Ha].
    pose proof (in_transaction_other T t s Hin Hq) as Hne.
    split; [split; [by apply wf_close|]|split; [by apply lawful_close|]].
    { unfold closed. by rewrite queue_of_update_ne. }
    intros q0 Hq0. unfold closed. rewrite queue_of_update_ne by done.
    apply (Ha q0). unfold opened. by rewrite queue_of_update_ne.
  - intros s t s' q c [Hwf Hin] Hqt [Hwf' Hin'] _ Hq Hc s1 i [Hwf1 Hin1]
      [[(_ & Hn & _) _] _].
    pose proof (in_transaction_other T t s Hin Hqt) as Hne.
    destruct Hwf' as (H1 & _). destruct (H1 _ _ _ Hq Hc) as [Ho Hk].
    split; [split; [|done]|split; [apply lawful_emit|]].
    { apply wf_notify; [|done]. simpl in Hn. lia. }
    apply (awaiting_intro _ _ _ [Notify c i]); [done| |].
    + intros q0 Hq0. rewrite queue_of_emit, Hq0. by rewrite app_nil_r.
    + intros c' i' [= -> ->]%list_elem_of_singleton. congruence.
Qed.

(** ** The flush goes through the queue in order *)








Section Flush.

Context (classes : nat → class_decl) (functions : nat → val → list cmd).

#[local] Abbreviation run := (run classes functions).

Lemma do_call_lawful n c s : ensures (lawful s) (do_call (run n) c s).
Proof.
  apply ensures_lawful.
  apply (do_call_sound _ _ lawful_logic (run n)) with (s0 := s);
    [|by intros ?? _ _; split; [|apply lawful_emit]|done|reflexivity].
  intros. by apply run_sound; [apply lawful_logic|].
Qed.

Lemma do_call_other n k c s :
  serial c ≠ k → absent k s →
  ensures (λ s', absent k s' ∧ unnotified k s s') (do_call (run n) c s).
Proof.
  intros Hc Ha.
  apply (do_call_sound _ _ (absent_logic k) (run n)) with (s0 := s);
    [| |done..].
  - intros. by apply run_sound; [apply absent_logic|].
  - intros s1 i Ha1 _. split; [by apply absent_emit|].
    unfold unnotified. simpl. rewrite notified_app. unfold notified at 2.
    simpl. by rewrite decide_False, app_nil_r.
Qed.

Lemma flush_lawful n q s :
  ensures (lawful s) (for_each (do_call (run n)) q s).
Proof.
  revert s. induction q as [|c q IH]; intros s; simpl; [reflexivity|].
  pose proof (do_call_lawful n c s) as Hc.
  destruct (do_call _ _ _) as [s1| | |]; try done.
  eapply ensures_impl; [|apply IH]. intros. by etrans.
Qed.



End Flush.

(** ** The claims about notification *)

Lemma wf_closed_state s :
  Forall (λ o, _event_signal_queue o = None) (tasks s) →
  Forall (λ x, match x with
               | Notify c _ => serial c < next_id s
               | _ => True
               end) (log s) →
  wf s.
Proof.
  intros Hq Hl.
  assert (∀ t, queue_of t s = None) as Hnone.
  { intros t. unfold queue_of. destruct (tasks s !! t) as [o|] eqn:Ho; [|done].
    simpl. rewrite Forall_forall in Hq. apply Hq.
    by eapply list_elem_of_lookup_2. }
  split; [|split; [|split]].
  - intros t q c Hqt. by rewrite Hnone in Hqt.
  - intros t q Hqt. by rewrite Hnone in Hqt.
  - intros t t' q q' c c' Hqt. by rewrite Hnone in Hqt.
  - intros c i Hc. rewrite Forall_forall in Hl. apply (Hl _ Hc).
Qed.

Lemma absent_closed_state k s :
  k < next_id s →
  Forall (λ o, _event_signal_queue o = None) (tasks s) →
  absent k s.
Proof.
  intros Hk Hq. split; [done|]. intros t q Hqt. exfalso.
  unfold queue_of in Hqt. destruct (tasks s !! t) as [o|] eqn:Ho; [|done].
  simpl in Hqt. rewrite Forall_forall in Hq.
  rewrite (Hq o) in Hqt; [done|]. by eapply list_elem_of_lookup_2.
Qed.

Lemma notified_added k s s' l :
  steady s s' → notified k (log s') = notified k (log s) ++ l →
  notified k (added s s') = l.
Proof.
  intros Hst Hn. rewrite (steady_log _ _ Hst), notified_app in Hn.
  by apply app_inv_head in Hn.
Qed.

(** C2, as the code has it: the subscribers called on behalf of a fired
    event are those present when its notification pass starts, in
    subscription order, whatever the subscribers do to the list during
    the pass.  The pass starts when the body has returned if the task has
    no transaction open; otherwise the event is only queued, and its pass
    is the one made by the flush. *)
Theorem notification_pass_snapshot classes functions n :
  (∀ c s s',
     absent (serial c) s →
     do_call (run classes functions n) c s = Ok s' →
     notified (serial c) (added s s') =
     subscribers_of (cl_owner (thunk c)) (cl_event (thunk c)) s) ∧
  (∀ t e a s o s',
     wf s → tasks s !! t = Some o → _running o = true →
     _event_signal_queue o = None →
     run classes functions (S n) (CallEvent t e a) s = Ok s' →
     ∃ s1,
       _call_method classes (run classes functions n) t e a
         (emit (Body t e a) s) = Ok s1 ∧
       notified (next_id s1) (log s') = subscribers_of t e s1) ∧
  (∀ t e a s o q s',
     wf s → tasks s !! t = Some o → _running o = true →
     _event_signal_queue o = Some q →
     run classes functions (S n) (CallEvent t e a) s = Ok s' →
     ∃ s1,
       _call_method classes (run classes functions n) t e a
         (emit (Body t e a) s) = Ok s1 ∧
       s' = register t {| cl_owner := t; cl_event := e; cl_arg := a |} s1 ∧
       notified (next_id s1) (log s') = []).
Proof.
  split; [|split].
  - intros c s s' Ha Hrun.
    pose proof (do_call_pass classes functions n c s Ha) as Hp.
    pose proof (do_call_lawful classes functions n c s) as Hl.
    rewrite Hrun in *. destruct Hp as [_ Hp]. destruct Hl as [Hst _].
    by eapply notified_added.
  - intros t e a s o s' Hwf Ho Hr Hq Hrun.
    destruct (event_outside_transaction classes functions n t e a s o s'
                Hwf Ho Hr Hq Hrun) as (s1 & ? & ? & _). eauto.
  - intros t e a s o q s' Hwf Ho Hr Hq Hrun.
    assert (has_event (classes (cls o)) e = true) as He.
    { rewrite run_event_unfold in Hrun. unfold Event_call, with_task in Hrun.
      rewrite Ho in Hrun. by destruct (has_event _ _). }
    rewrite (event_inside_transaction classes functions n t e a s o q
               Ho Hq Hr He) in Hrun.
    assert (wf (emit (Body t e a) s)) as Hwf0.
    { eapply wf_mut; [|done]. by eapply mut_body. }
    pose proof (call_method_wf classes functions n t e a _ o Hwf0 Ho Hr)
      as Hbody.
    destruct (_call_method _ _ _ _ _ _) as [s1| | |]; [|done..].
    injection Hrun as <-. exists s1. split; [done|]. split; [done|].
    destruct Hbody as [(_ & _ & _ & H4) _].
    apply notified_fresh. simpl.
    intros c i [Hc|[=]%list_elem_of_singleton]%elem_of_app Hk.
    specialize (H4 _ _ Hc). lia.
Qed.

Lemma wf_listening : wf Demo.listening.
Proof. apply wf_closed_state; vm_compute; repeat constructor. Qed.


Lemma absent_pass_start : absent 0 Demo.pass_start.
Proof.
  apply absent_closed_state; [simpl; lia|vm_compute; repeat constructor].
Qed.

Lemma notification_pass_snapshot_witness :
  notified 0
    (added Demo.pass_start
       (Demo.final (do_call (run Demo.nested'_only Demo.marking 3)
                      Demo.first_closure Demo.pass_start))) =
  subscribers_of 0 (Declared 1) Demo.pass_start ∧
  (∃ s1,
     _call_method Demo.nested'_only (run Demo.nested'_only Demo.marking 3)
       0 (Declared 1) (VInt 1)
       (emit (Body 0 (Declared 1) (VInt 1)) Demo.listening) = Ok s1 ∧
     notified (next_id s1)
       (log (Demo.final (run Demo.nested'_only Demo.marking 4
                           (CallEvent 0 (Declared 1) (VInt 1))
                           Demo.listening))) =
     subscribers_of 0 (Declared 1) s1) ∧
  (∃ s1,
     _call_method Demo.nested'_only (run Demo.nested'_only Demo.marking 3)
       0 (Declared 1) (VInt 1)
       (emit (Body 0 (Declared 1) (VInt 1)) (opened 0 Demo.listening))
     = Ok s1 ∧
     Demo.final (run Demo.nested'_only Demo.marking 4
                   (CallEvent 0 (Declared 1) (VInt 1))
                   (opened 0 Demo.listening)) =
     register 0 {| cl_owner := 0; cl_event := Declared 1; cl_arg := VInt 1 |}
       s1 ∧
     notified (next_id s1)
       (log (Demo.final (run Demo.nested'_only Demo.marking 4
                           (CallEvent 0 (Declared 1) (VInt 1))
                           (opened 0 Demo.listening)))) = []).
Proof.
  destruct (notification_pass_snapshot Demo.nested'_only Demo.marking 3)
    as (Ha & Hb & Hc).
  split; [|split].
  - apply (Ha Demo.first_closure Demo.pass_start);
      [apply absent_pass_start|vm_compute; reflexivity].
  - eapply (Hb 0 (Declared 1) (VInt 1) Demo.listening);
      [apply wf_listening|vm_compute; reflexivity..].
  - eapply (Hc 0 (Declared 1) (VInt 1) (opened 0 Demo.listening));
      [apply wf_open, wf_listening|vm_compute; reflexivity..].
Defined.

(** C2 fails inside a transaction: transaction 0 of [Demo.nested'] fires
    event 0 first, in the store [opened 0 Demo.listening], where only
    function 5 listens to it, and subscribes function 9 afterwards; the
    closure of that event, which gets serial 1, calls both. *)
Lemma subscribers_at_flush_not_at_fire :
  subscribers_of 0 (Declared 0) (opened 0 Demo.listening) = [HFun 5] ∧
  ∃ s', run Demo.nested'_only Demo.marking 6 (CallTransaction 0 0 (VInt 3))
          Demo.listening = Ok s' ∧
        registered 0 (log s') !! 1 =
          Some {| serial := 1;
                  thunk := {| cl_owner := 0; cl_event := Declared 0;
                              cl_arg := VInt 3 |} |} ∧
        notified 1 (log s') = [HFun 5; HFun 9].
Proof. split; [done|]. eexists. split; [reflexivity|]. by split. Qed.





(** C9, as the code has it: an event fired on [B] while another task
    [A] has a transaction open and [B] has none of its own: when the call
    returns, the subscribers of the event present after its body have all
    been called, the transaction of [A] is still open, and what waits in
    the queue of [A] are closures of [A], not the one of this event. *)
Theorem event_of_other_task_not_deferred classes functions n A B e a s qa oB s' :
  wf s → queue_of A s = Some qa →
  tasks s !! B = Some oB → _running oB = true →
  _event_signal_queue oB = None →
  run classes functions (S n) (CallEvent B e a) s = Ok s' →
  ∃ s1,
    _call_method classes (run classes functions n) B e a
      (emit (Body B e a) s) = Ok s1 ∧
    notified (next_id s1) (log s') = subscribers_of B e s1 ∧
    ∃ qa', queue_of A s' = Some (qa ++ qa') ∧
           ∀ c, c ∈ qa ++ qa' →
                cl_owner (thunk c) = A ∧ serial c ≠ next_id s1.
Proof.
  intros Hwf HqA HoB HrB HqB Hrun.
  destruct (event_outside_transaction classes functions n B e a s oB s'
              Hwf HoB HrB HqB Hrun) as (s1 & Hb & Hn & Ha & Hwf' & [_ Hbal]).
  exists s1. split; [done|]. split; [done|].
  destruct (balanced_open _ _ _ _ Hbal HqA) as [qa' Hq']. exists qa'.
  split; [done|]. intros c Hc. destruct Hwf' as (H1 & _).
  destruct (H1 _ _ _ Hq' Hc) as [Ho _]. split; [done|].
  intros Hk. destruct Ha as [_ Ha]. apply (Ha _ _ Hq').
  rewrite <- Hk. by apply list_elem_of_fmap_2.
Qed.

Lemma wf_inside_other : wf Demo.inside_other.
Proof.
  apply wf_open, wf_closed_state; vm_compute; repeat constructor.
Qed.

Lemma event_of_other_task_not_deferred_witness :
  ∃ s1,
    _call_method Demo.nested'_only (run Demo.nested'_only Demo.marking 3)
      1 (Declared 1) (VInt 1)
      (emit (Body 1 (Declared 1) (VInt 1)) Demo.inside_other) = Ok s1 ∧
    notified (next_id s1)
      (log (Demo.final (run Demo.nested'_only Demo.marking 4
                          (CallEvent 1 (Declared 1) (VInt 1))
                          Demo.inside_other))) =
    subscribers_of 1 (Declared 1) s1 ∧
    ∃ qa',
      queue_of 0 (Demo.final (run Demo.nested'_only Demo.marking 4
                                (CallEvent 1 (Declared 1) (VInt 1))
                                Demo.inside_other)) = Some ([] ++ qa') ∧
      ∀ c, c ∈ [] ++ qa' → cl_owner (thunk c) = 0 ∧ serial c ≠ next_id s1.
Proof.
  eapply (event_of_other_task_not_deferred Demo.nested'_only Demo.marking 3
            0 1 (Declared 1) (VInt 1) Demo.inside_other []);
    [apply wf_inside_other|vm_compute; reflexivity..].
Defined.

(** C9 fails when [B] has a transaction of its own open: transaction 3 of
    task 1 calls transaction 1 of task 0, which fires event 1 of task 1
    and records 201; back in transaction 3, 300 is recorded; only then,
    when transaction 3 ends, is function 6, the subscriber of the event,
    called. *)
Lemma event_of_other_task_deferred_by_own_transaction :
  ∃ s', run Demo.relaying_only Demo.marking 8
          (CallTransaction 1 3 (VInt 1)) Demo.listening_other = Ok s' ∧
        marks_and_calls (log s') =
          [inl 110; inl 201; inl 300; inr (HFun 6); inl 6].
Proof. eexists. split; [vm_compute; reflexivity|]. done. Qed.




(** * Further properties of the library *)

(** ** Subscribing and unsubscribing *)

Lemma remove_first_notin i l : i ∉ l → remove_first i l = None.
Proof.
  induction l as [|y l IH]; [done|]. intros [Hy Hl]%not_elem_of_cons.
  simpl. rewrite decide_False by done. by rewrite IH.
Qed.

Lemma remove_first_split i l1 l2 :
  i ∉ l1 → remove_first i (l1 ++ i :: l2) = Some (l1 ++ l2).
Proof.
  induction l1 as [|y l1 IH]; simpl.
  - intros _. by rewrite decide_True.
  - intros [Hy Hl]%not_elem_of_cons. rewrite decide_False by done.
    by rewrite IH.
Qed.

Lemma remove_first_snoc i l : i ∉ l → remove_first i (l ++ [i]) = Some l.
Proof. intros. rewrite remove_first_split by done. by rewrite app_nil_r. Qed.

Lemma subscribers_of_set_subscribers t e l s o t' e' :
  tasks s !! t = Some o →
  subscribers_of t' e' (update t (set_subscribers e l) s) =
  if decide (t' = t ∧ e' = e) then l else subscribers_of t' e' s.
Proof.
  intros Ho. unfold subscribers_of. rewrite lookup_update.
  destruct (decide (t = t')) as [<-|Hne].
  - rewrite Ho. simpl. destruct (decide (e' = e)) as [->|He].
    + by rewrite decide_True.
    + rewrite decide_False; [done|]. by intros [_ ?].
  - rewrite decide_False; [done|]. by intros [-> _].
Qed.

(** X1: [e += i] followed by [e -= i].  Both succeed.  When [i] was not
    subscribed the list of subscribers is what it was; when it was, its
    first subscription is the one removed, so that [i] has moved to the
    end of the list.  No other list of subscribers changes. *)
Theorem subscribe_then_unsubscribe classes t e i s o :
  tasks s !! t = Some o → has_event (classes (cls o)) e = true →
  ∃ s1 s2,
    __iadd__ classes t e i s = Ok s1 ∧
    __isub__ classes t e i s1 = Ok s2 ∧
    (i ∉ subscribers_of t e s →
       subscribers_of t e s2 = subscribers_of t e s) ∧
    (∀ l1 l2, subscribers_of t e s = l1 ++ i :: l2 → i ∉ l1 →
       subscribers_of t e s2 = l1 ++ l2 ++ [i]) ∧
    (∀ t' e', ¬ (t' = t ∧ e' = e) →
       subscribers_of t' e' s2 = subscribers_of t' e' s).
Proof.
  intros Ho He. rewrite (subscribers_of_lookup _ _ _ _ Ho).
  assert (update t (λ o, set_subscribers e (_subscribers o e ++ [i]) o) s =
          update t (λ _, set_subscribers e (_subscribers o e ++ [i]) o) s)
    as Hs1
    by (by apply (update_const _
                    (λ o, set_subscribers e (_subscribers o e ++ [i]) o))).
  set (o1 := set_subscribers e (_subscribers o e ++ [i]) o) in *.
  set (s1 := update t (λ _, o1) s).
  assert (tasks s1 !! t = Some o1) as Ho1.
  { unfold s1. by rewrite lookup_update_eq, Ho. }
  assert (_subscribers o1 e = _subscribers o e ++ [i]) as Hl1.
  { unfold o1. simpl. by rewrite decide_True. }
  assert (∃ l, remove_first i (_subscribers o e ++ [i]) = Some l ∧
               (i ∉ _subscribers o e → l = _subscribers o e) ∧
               (∀ l1 l2, _subscribers o e = l1 ++ i :: l2 → i ∉ l1 →
                  l = l1 ++ l2 ++ [i])) as (l & Hl & Hnew & Hold).
  { destruct (decide (i ∈ _subscribers o e)) as [Hin|Hnin].
    - apply list_elem_of_split_l in Hin as (l1 & l2 & Hsplit & Hnin).
      exists (l1 ++ l2 ++ [i]). rewrite Hsplit, <- app_assoc. simpl.
      rewrite remove_first_split by done. split; [done|].
      split; [intros Hn; exfalso; apply Hn, elem_of_app; right; by left|].
      intros l1' l2' Heq Hnin'.
      assert (l1' = l1 ∧ l2' = l2) as [-> ->]; [|done].
      clear -Heq Hnin Hnin'. revert l1' Heq Hnin'.
      induction l1 as [|y l1 IH]; intros [|y' l1'] Heq Hnin'; simplify_eq/=.
      + done.
      + by apply not_elem_of_cons in Hnin' as [? _].
      + by apply not_elem_of_cons in Hnin as [? _].
      + apply not_elem_of_cons in Hnin as [? ?].
        apply not_elem_of_cons in Hnin' as [? ?].
        destruct (IH ltac:(done) l1' ltac:(done) ltac:(done)) as [-> ->].
        done.
    - exists (_subscribers o e). rewrite remove_first_snoc by done.
      split; [done|]. split; [done|]. intros l1 l2 Heq _.
      exfalso. apply Hnin. rewrite Heq. apply elem_of_app. right. by left. }
  exists s1, (update t (set_subscribers e l) s1).
  split. { unfold __iadd__, with_task. by rewrite Ho, He, Hs1. }
  split. { unfold __isub__, with_task. rewrite Ho1.
           assert (cls o1 = cls o) as -> by done. by rewrite He, Hl1, Hl. }
  split; [|split].
  - intros Hnin.
    rewrite (subscribers_of_set_subscribers _ _ _ _ _ _ _ Ho1).
    rewrite decide_True by done. by apply Hnew.
  - intros l1 l2 Heq Hnin.
    rewrite (subscribers_of_set_subscribers _ _ _ _ _ _ _ Ho1).
    rewrite decide_True by done. by eapply Hold.
  - intros t' e' Hne.
    rewrite (subscribers_of_set_subscribers _ _ _ _ _ _ _ Ho1).
    rewrite decide_False by done. unfold subscribers_of, s1.
    rewrite lookup_update. case_decide; [subst|done]. rewrite Ho. simpl.
    rewrite decide_False; [done|]. intros ->. by apply Hne.
Qed.

Lemma subscribe_then_unsubscribe_witness :
  ∃ s1 s2,
    __iadd__ Demo.nested'_only 0 (Declared 1) (HFun 0) Demo.listening_raising
      = Ok s1 ∧
    __isub__ Demo.nested'_only 0 (Declared 1) (HFun 0) s1 = Ok s2 ∧
    (HFun 0 ∉ subscribers_of 0 (Declared 1) Demo.listening_raising →
       subscribers_of 0 (Declared 1) s2 =
       subscribers_of 0 (Declared 1) Demo.listening_raising) ∧
    (∀ l1 l2,
       subscribers_of 0 (Declared 1) Demo.listening_raising
         = l1 ++ HFun 0 :: l2 →
       HFun 0 ∉ l1 →
       subscribers_of 0 (Declared 1) s2 = l1 ++ l2 ++ [HFun 0]) ∧
    (∀ t' e', ¬ (t' = 0 ∧ e' = Declared 1) →
       subscribers_of t' e' s2 =
       subscribers_of t' e' Demo.listening_raising).
Proof.
  exact (subscribe_then_unsubscribe Demo.nested'_only 0 (Declared 1) (HFun 0)
           Demo.listening_raising _ eq_refl eq_refl).
Defined.

(** X2: [e -= i] removes the first subscription of [i] and keeps the
    later ones; when [i] is not subscribed it raises [ValueError] and
    changes nothing. *)
Theorem unsubscribe_removes_first_match classes t e i s o :
  tasks s !! t = Some o → has_event (classes (cls o)) e = true →
  (i ∉ subscribers_of t e s →
     __isub__ classes t e i s = Raised ValueError s) ∧
  (∀ l1 l2, subscribers_of t e s = l1 ++ i :: l2 → i ∉ l1 →
     ∃ s', __isub__ classes t e i s = Ok s' ∧
           subscribers_of t e s' = l1 ++ l2 ∧
           (∀ t' e', ¬ (t' = t ∧ e' = e) →
              subscribers_of t' e' s' = subscribers_of t' e' s) ∧
           running t s' = running t s ∧ log s' = log s).
Proof.
  intros Ho He. rewrite (subscribers_of_lookup _ _ _ _ Ho). split.
  - intros Hnin. unfold __isub__, with_task.
    by rewrite Ho, He, remove_first_notin.
  - intros l1 l2 Heq Hnin. exists (update t (set_subscribers e (l1 ++ l2)) s).
    split. { unfold __isub__, with_task.
             by rewrite Ho, He, Heq, remove_first_split. }
    split. { rewrite (subscribers_of_set_subscribers _ _ _ _ _ _ _ Ho).
             by rewrite decide_True. }
    split. { intros t' e' Hne.
             rewrite (subscribers_of_set_subscribers _ _ _ _ _ _ _ Ho).
             by rewrite decide_False. }
    split; [|done]. unfold running. rewrite lookup_update_eq, Ho. done.
Qed.

Lemma unsubscribe_removes_first_match_witness :
  (HFun 0 ∉ subscribers_of 0 (Declared 1) Demo.listening_raising →
     __isub__ Demo.nested'_only 0 (Declared 1) (HFun 0)
       Demo.listening_raising
     = Raised ValueError Demo.listening_raising) ∧
  (∀ l1 l2,
     subscribers_of 0 (Declared 1) Demo.listening_raising
       = l1 ++ HFun 0 :: l2 →
     HFun 0 ∉ l1 →
     ∃ s', __isub__ Demo.nested'_only 0 (Declared 1) (HFun 0)
             Demo.listening_raising = Ok s' ∧
           subscribers_of 0 (Declared 1) s' = l1 ++ l2 ∧
           (∀ t' e', ¬ (t' = 0 ∧ e' = Declared 1) →
              subscribers_of t' e' s' =
              subscribers_of t' e' Demo.listening_raising) ∧
           running 0 s' = running 0 Demo.listening_raising ∧
           log s' = log Demo.listening_raising).
Proof.
  exact (unsubscribe_removes_first_match Demo.nested'_only 0 (Declared 1)
           (HFun 0) Demo.listening_raising _ eq_refl eq_refl).
Defined.

(** ** [stop] and [stop_task] *)

(** X3: in a program whose classes keep the empty [_cleanup],
    [stop_task] never raises: it leaves [None] and a task that is not
    running alone and stops a running task; afterwards the task is not
    running, and a second call changes nothing. *)
Theorem stop_task_never_raises classes functions n r s :
  refs_ok s → count_running s ≤ n →
  (∀ t, r = Some t → t < length (tasks s)) →
  ∃ s', stop_task (run classes functions n) r s = Ok s' ∧
        (∀ t, r = Some t → running t s' = Some false) ∧
        (r = None → s' = s) ∧
        (∀ t, r = Some t → running t s = Some false → s' = s) ∧
        stop_task (run classes functions n) r s' = Ok s'.
Proof.
  intros Hok Hn Hr. destruct r as [t|]; [|by exists s].
  destruct (lookup_lt_is_Some_2 (tasks s) t) as [o Ho]; [by apply Hr|].
  destruct (_running o) eqn:Hrun.
  - destruct (stop_total classes functions n t s o Hok Ho Hrun Hn)
      as [s' Hs'].
    pose proof (stop_partial classes functions n t s) as Hp.
    rewrite Hs' in Hp. destruct Hp as (_ & _ & Hf). exists s'.
    split; [by unfold stop_task, with_task; rewrite Ho, Hrun|].
    split; [by intros ? [= <-]|]. split; [done|].
    split.
    + intros ? [= <-] Hf'. unfold running in Hf'. rewrite Ho in Hf'.
      simpl in Hf'. congruence.
    + apply running_Some in Hf as (o' & Ho' & Hr').
      unfold stop_task, with_task. by rewrite Ho', Hr'.
  - exists s. assert (stop_task (run classes functions n) (Some t) s = Ok s)
      as Hst by (by unfold stop_task, with_task; rewrite Ho, Hrun).
    split; [done|]. split; [|done].
    intros ? [= <-]. by eapply running_lookup.
Qed.

Lemma refs_ok_adopted : refs_ok Demo.adopted.
Proof.
  intros p c (o & Ho & Hc).
  destruct p as [|[|p]]; [| |done]; injection Ho as <-.
  - apply list_elem_of_singleton in Hc as ->. simpl. lia.
  - by apply elem_of_nil in Hc.
Qed.

Lemma stop_task_never_raises_witness :
  ∃ s', stop_task (run Demo.tasks_only Demo.marking 2) (Some 0) Demo.adopted
        = Ok s' ∧
        (∀ t, Some 0 = Some t → running t s' = Some false) ∧
        (Some 0 = None → s' = Demo.adopted) ∧
        (∀ t, Some 0 = Some t → running t Demo.adopted = Some false →
           s' = Demo.adopted) ∧
        stop_task (run Demo.tasks_only Demo.marking 2) (Some 0) s' = Ok s'.
Proof.
  apply (stop_task_never_raises Demo.tasks_only Demo.marking 2 (Some 0)
           Demo.adopted).
  - apply refs_ok_adopted.
  - unfold count_running. simpl. lia.
  - intros t [= <-]. simpl. lia.
Defined.

Lemma stops_adopts_rev t s s' p c : stops t s s' → adopts s p c → adopts s' p c.
Proof.
  intros (_ & _ & _ & Ht) (o & Ho & Hc).
  destruct (Ht _ _ Ho) as [?|(_ & _ & ?)]; eexists; by split.
Qed.

Lemma stops_reaches_rev t s s' i p :
  stops t s s' → rtc (adopts s) i p → rtc (adopts s') i p.
Proof.
  intros Hs. induction 1 as [|x y z Hxy _ IH]; [apply rtc_refl|].
  eapply rtc_l; [|done]. by eapply stops_adopts_rev.
Qed.

Lemma stops_unreached t s s' p :
  stops t s s' → ¬ rtc (adopts s) t p → tasks s' !! p = tasks s !! p.
Proof.
  intros (_ & _ & Hlen & Ht) Hp.
  destruct (tasks s !! p) as [o|] eqn:Ho.
  - by destruct (Ht _ _ Ho) as [?|(? & _)].
  - apply lookup_ge_None. rewrite Hlen. by apply lookup_ge_None.
Qed.

Lemma settled_except_none s : settled_except (λ _, False) s ↔ settled s.
Proof.
  split; intros H p c Hpc Hp.
  - apply (H p c); [done..|]. by intros [].
  - intros _. by apply (H p c).
Qed.

Section Settle.

Context (classes : nat → class_decl) (functions : nat → val → list cmd).

Lemma stop_task_loop_keeps_stopped n l s :
  ensures (λ s', ∀ p, running p s = Some false → running p s' = Some false)
    (for_each (λ i, stop_task (run classes functions n) (Some i)) l s).
Proof.
  revert s. induction l as [|i l IHl]; intros s; simpl; [done|].
  unfold with_task. destruct (tasks s !! i) as [oi|] eqn:Hi; [|done].
  destruct (_running oi) eqn:Hri; [|apply IHl].
  pose proof (stop_partial classes functions n i s) as Hp.
  destruct (run classes functions n (CallStop i) s) as [s1|x s1| |];
    try done.
  - destruct Hp as (Hst & _). eapply ensures_impl; [|apply IHl].
    intros s' H p Hp. apply H. by eapply stops_running_false.
  - destruct Hp as (_ & -> & _). simpl. auto.
Qed.

(** [stop] re-establishes [settled_except X] when it returns: the tasks
    adopted by the stopped task are no longer running. *)
Lemma stop_settles n t s s' X :
  settled_except X s →
  run classes functions n (CallStop t) s = Ok s' →
  settled_except X s'.
Proof.
  revert t s s' X. induction n as [|n IH]; intros t s s' X Hset Hrun; [done|].
  pose proof (stop_partial classes functions (S n) t s) as Hp.
  rewrite Hrun in Hp. destruct Hp as (Hst & Hrt & Hrt').
  rewrite run_stop_unfold in Hrun. unfold stop, with_task in Hrun.
  apply running_Some in Hrt as (o & Ho & Hr). rewrite Ho, Hr in Hrun.
  simpl in Hrun.
  pose proof (stops_self _ _ _ Ho Hr) as Hs0.
  assert (settled_except (λ p, X p ∨ p = t)
            (update t (set_running false) s)) as Hset0.
  { intros p c Hpc Hp HX.
    assert (p ≠ t) as Hne by tauto.
    eapply stops_running_false; [done|]. apply (Hset p c).
    - by eapply stops_adopts.
    - unfold running in *. by rewrite lookup_update_ne in Hp.
    - tauto. }
  assert (settled_except (λ p, X p ∨ p = t) s' ∧
          ∀ i, i ∈ _adopted_tasks o → running i s' = Some false)
    as [Hset' Hch].
  { clear Hst Hrt' Hs0 Hset Ho Hr. revert Hrun Hset0.
    generalize (update t (set_running false) s) as sj.
    generalize (_adopted_tasks o) as l.
    induction l as [|i l IHl]; intros sj Hrun Hsetj; simpl in Hrun.
    { injection Hrun as <-. split; [done|]. by intros i ?%elem_of_nil. }
    unfold with_task in Hrun.
    destruct (tasks sj !! i) as [oi|] eqn:Hi; [|done].
    destruct (_running oi) eqn:Hri.
    - pose proof (stop_partial classes functions n i sj) as Hp.
      destruct (run classes functions n (CallStop i) sj) as [sj'| | |] eqn:Hi';
        try done.
      destruct Hp as (Hsti & _ & Hfi).
      destruct (IHl sj' Hrun (IH _ _ _ _ Hsetj Hi')) as [Hs' Hl].
      split; [done|]. intros j [->|Hj]%elem_of_cons; [|by apply Hl].
      pose proof (stop_task_loop_keeps_stopped n l sj') as Hmono.
      rewrite Hrun in Hmono. by apply Hmono.
    - destruct (IHl sj Hrun Hsetj) as [Hs' Hl].
      split; [done|]. intros j [->|Hj]%elem_of_cons; [|by apply Hl].
      pose proof (stop_task_loop_keeps_stopped n l sj) as Hmono.
      rewrite Hrun in Hmono. apply Hmono. by eapply running_lookup. }
  intros p c Hpc Hp HX. destruct (decide (p = t)) as [->|Hne].
  - apply Hch. apply (stops_adopts _ _ _ _ _ Hst) in Hpc as (o' & Ho' & Hc).
    by simplify_eq.
  - apply (Hset' p c); [done..|]. tauto.
Qed.

End Settle.

(** X4: [stop] stops the whole adoption tree, in a program whose
    classes keep the empty [_cleanup].  In a store where the tasks
    adopted by stopped tasks are stopped, [stop] on a running task
    returns (one unit of fuel per running task is enough) with every
    task reachable from it by adoption stopped; the tasks out of its
    reach are as they were, no event body is entered and no subscriber
    is called. *)
Theorem stop_stops_adopted_tasks classes functions n t s :
  refs_ok s → settled s → running t s = Some true → count_running s ≤ n →
  ∃ s', run classes functions n (CallStop t) s = Ok s' ∧
        (∀ p, rtc (adopts s) t p → running p s' = Some false) ∧
        (∀ p, ¬ rtc (adopts s) t p → tasks s' !! p = tasks s !! p) ∧
        settled s' ∧ log s' = log s.
Proof.
  intros Hok Hset (o & Ho & Hr)%running_Some Hn.
  destruct (stop_total classes functions n t s o Hok Ho Hr Hn) as [s' Hs'].
  pose proof (stop_partial classes functions n t s) as Hp.
  rewrite Hs' in Hp. destruct Hp as (Hst & _ & Hf).
  assert (settled s') as Hset'.
  { apply settled_except_none.
    eapply stop_settles; [|done]. by apply settled_except_none. }
  exists s'. split; [done|]. split; [|split; [|split]].
  - intros p Hp. apply (stops_reaches_rev _ _ _ _ _ Hst) in Hp.
    revert p Hp. apply rtc_ind_r; [done|].
    intros y z _ Hyz Hy. by apply (Hset' y z).
  - intros p Hp. by eapply stops_unreached.
  - done.
  - by destruct Hst as (? & _).
Qed.

Lemma settled_adopted : settled Demo.adopted.
Proof.
  intros p c _ (o & Ho & Hr)%running_Some.
  destruct p as [|[|p]]; [| |done]; by injection Ho as <-.
Qed.

Lemma stop_stops_adopted_tasks_witness :
  ∃ s', run Demo.tasks_only Demo.marking 2 (CallStop 0) Demo.adopted = Ok s' ∧
        (∀ p, rtc (adopts Demo.adopted) 0 p → running p s' = Some false) ∧
        (∀ p, ¬ rtc (adopts Demo.adopted) 0 p →
           tasks s' !! p = tasks Demo.adopted !! p) ∧
        settled s' ∧ log s' = log Demo.adopted.
Proof.
  apply (stop_stops_adopted_tasks Demo.tasks_only Demo.marking 2 0
           Demo.adopted).
  - apply refs_ok_adopted.
  - apply settled_adopted.
  - reflexivity.
  - unfold count_running. simpl. lia.
Defined.

(** ** Outcomes *)

(** X5: once a task has stopped, nothing the library is asked to do
    changes what its properties [running], [failed], [exception],
    [succeeded] and [result] return. *)
Theorem stopped_task_keeps_its_outcome classes functions n c s t :
  running t s = Some false →
  ensures (λ s', running t s' = Some false ∧
                 failed t s' = failed t s ∧
                 exception t s' = exception t s ∧
                 succeeded classes t s' = succeeded classes t s ∧
                 result_of classes t s' = result_of classes t s)
    (run classes functions n c s).
Proof.
  intros (o & Ho & Hr)%running_Some.
  eapply ensures_impl; [|apply run_lawful].
  intros s' [(_ & _ & _ & Ht) _].
  destruct (Ht _ _ Ho) as (o' & Ho' & Hc & Hf).
  destruct (Hf Hr) as (Hr' & Hx & Hres & Hsu).
  unfold running, failed, exception, succeeded, result_of.
  rewrite Ho, Ho'. simpl. by rewrite Hr, Hr', Hx, Hres, Hsu, Hc.
Qed.

Lemma stopped_task_keeps_its_outcome_witness :
  ensures (λ s', running 0 s' = Some false ∧
                 failed 0 s' = failed 0 Demo.stopped_task ∧
                 exception 0 s' = exception 0 Demo.stopped_task ∧
                 succeeded Demo.nested_only 0 s' =
                   succeeded Demo.nested_only 0 Demo.stopped_task ∧
                 result_of Demo.nested_only 0 s' =
                   result_of Demo.nested_only 0 Demo.stopped_task)
    (run Demo.nested_only Demo.marking 3 (CallEvent 0 (Declared 1) VNone)
       Demo.stopped_task).
Proof.
  apply (stopped_task_keeps_its_outcome Demo.nested_only Demo.marking 3
           (CallEvent 0 (Declared 1) VNone) Demo.stopped_task 0).
  reflexivity.
Defined.

(** ** Transactions *)

(** X9: while a transaction of [T] is open, whatever is called, of
    whatever task, no subscriber of an event of [T] is called, and the
    queue of [T] ends as what it was followed by the closures of the
    events of [T] fired meanwhile, in the order in which they were handed
    over. *)
Theorem open_transaction_defers_every_call classes functions n c T s q :
  wf s → queue_of T s = Some q →
  ensures (λ s', queue_of T s' = Some (q ++ registered T (added s s')) ∧
                 silent T (added s s'))
    (run classes functions n c s).
Proof.
  intros Hwf Hq.
  pose proof (run_sound classes functions _ _ (deferring_logic T) n c s) as H.
  eapply ensures_impl; [|apply H; split; [done|eauto]].
  intros s' [_ [_ Haw]]. by apply Haw.
Qed.

Lemma open_transaction_defers_every_call_witness :
  ensures (λ s', queue_of 0 s' =
                   Some ([] ++ registered 0 (added (opened 0 Demo.listening) s')) ∧
                 silent 0 (added (opened 0 Demo.listening) s'))
    (run Demo.nested'_only Demo.marking 6 (CallTransaction 0 2 (VInt 3))
       (opened 0 Demo.listening)).
Proof.
  apply (open_transaction_defers_every_call Demo.nested'_only Demo.marking 6
           (CallTransaction 0 2 (VInt 3)) 0 (opened 0 Demo.listening) []).
  - apply wf_open, wf_listening.
  - reflexivity.
Defined.

(** X10: transactions are closed again.  Whatever is called and however
    it ends, normally or with an exception, a task that had no
    transaction open has none open afterwards, and the queue of a task
    that had one open has only grown. *)
Theorem transactions_are_closed_again classes functions n c s t :
  ensures (λ s', match queue_of t s with
                 | None => queue_of t s' = None
                 | Some q => ∃ q', queue_of t s' = Some (q ++ q')
                 end)
    (run classes functions n c s).
Proof.
  eapply ensures_impl; [|apply run_lawful]. intros s' [_ Hb]. apply Hb.
Qed.

(** ** The events [on_failure] and [on_success] *)

Section Lifecycle.

Context (classes : nat → class_decl) (functions : nat → val → list cmd).

(** An event of a running task, outside a transaction, whose body sets
    fields by [f] and calls [stop]. *)
Lemma lifecycle_event n t e a s o (f : task → task) :
  wf s → tasks s !! t = Some o → _running o = true →
  _event_signal_queue o = None →
  has_event (classes (cls o)) e = true →
  task_mut o (f o) →
  (∀ o', _running (f o') = _running o' ∧
         _adopted_tasks (f o') = _adopted_tasks o' ∧
         _subscribers (f o') = _subscribers o') →
  _call_method classes (run classes functions n) t e a (emit (Body t e a) s) =
    run classes functions n (CallStop t) (update t f (emit (Body t e a) s)) →
  match run classes functions (S n) (CallEvent t e a) s with
  | Ok s' =>
      (∃ o', tasks s' !! t = Some o' ∧ cls o' = cls o ∧ _running o' = false ∧
             _exception o' = _exception (f o) ∧ _result o' = _result (f o) ∧
             _succeeded o' = _succeeded (f o)) ∧
      notified (next_id s) (log s') = _subscribers o e
  | Raised _ s' =>
      ∃ o', tasks s' !! t = Some o' ∧ cls o' = cls o ∧ _running o' = false ∧
            _exception o' = _exception (f o) ∧ _result o' = _result (f o) ∧
            _succeeded o' = _succeeded (f o)
  | Timeout | Dangling => True
  end ∧
  (refs_ok s → Forall (passive functions) (_subscribers o e) →
   count_running s ≤ n → 1 ≤ n →
   ∃ s1 s',
     run classes functions n (CallStop t) (update t f (emit (Body t e a) s))
       = Ok s1 ∧
     run classes functions (S n) (CallEvent t e a) s = Ok s' ∧
     ∀ p, p ≠ t → tasks s' !! p = tasks s1 !! p).
Proof.
  intros Hwf Ho Hr Hq He Hmut Hf Hbody.
  destruct (Hf o) as (Hfr & Hfa & Hfs).
  assert (tasks (emit (Body t e a) s) !! t = Some o) as Hob by done.
  assert (wf (emit (Body t e a) s)) as Hwfb.
  { eapply wf_mut; [|done]. by eapply mut_body. }
  assert (wf (update t f (emit (Body t e a) s))) as Hwfa.
  { rewrite (update_const _ _ _ _ Hob). eapply wf_mut; [|done].
    eapply mut_task; [done..|]. intros c Hc. left. by rewrite <- Hfa. }
  assert (tasks (update t f (emit (Body t e a) s)) !! t = Some (f o)) as Hoa.
  { by rewrite lookup_update_eq, Hob. }
  assert (next_id (update t f (emit (Body t e a) s)) = next_id s) as Hida
    by done.
  assert (refs_ok s → refs_ok (update t f (emit (Body t e a) s))) as Hoka.
  { intros. apply refs_ok_update; [intros; apply Hf|]. by apply refs_ok_emit. }
  assert (count_running (update t f (emit (Body t e a) s)) = count_running s)
    as Hca.
  { rewrite count_running_update by (intros; apply Hf). done. }
  assert (run classes functions (S n) (CallEvent t e a) s =
          match run classes functions n (CallStop t)
                  (update t f (emit (Body t e a) s)) with
          | Ok s1 =>
              _run_within_transaction (run classes functions n) t
                {| cl_owner := t; cl_event := e; cl_arg := a |} s1
          | r => r
          end) as Hev.
  { rewrite run_event_unfold. unfold Event_call, with_task.
    rewrite Ho, He, Hr. by rewrite Hbody. }
  set (sa := update t f (emit (Body t e a) s)) in *. clearbody sa.
  pose proof (stop_partial classes functions n t sa) as Hp.
  pose proof (run_wf classes functions n (CallStop t) sa Hwfa) as Hw.
  assert (refs_ok s → count_running s ≤ n →
          ∃ s1, run classes functions n (CallStop t) sa = Ok s1) as Htot.
  { intros. eapply stop_total; [by apply Hoka|done|by rewrite Hfr|lia]. }
  destruct (run classes functions n (CallStop t) sa) as [s1|x s1| |] eqn:Hstop.
  2: { exfalso. destruct Hp as (_ & _ & Hfalse).
       pose proof (running_lookup _ _ _ _ Hoa Hfr). congruence. }
  2,3: rewrite Hev; split; [done|]; intros ? _ ? _; by destruct Htot.
  clear Htot. destruct Hp as (Hst & _ & Hr1). destruct Hw as [Hwf1 _].
  pose proof Hst as (Hlog & Hid & Hlen & Ht).
  assert (tasks s1 !! t = Some (set_running false (f o))) as Ho1.
  { destruct (Ht _ _ Hoa) as [H|(_ & _ & H)]; [|done].
    apply running_Some in Hr1 as (o1 & Ho1 & Hr1). congruence. }
  destruct (task_mut_facts _ _ Hmut) as (Hcls & Hqf & _).
  assert (_event_signal_queue (set_running false (f o)) = None) as Hq1
    by (simpl; congruence).
  rewrite (run_within_transaction_closed _ _ _ _ _ Ho1 Hq1) in Hev.
  pose proof (lookup_closed_register_opened t
                {| cl_owner := t; cl_event := e; cl_arg := a |} s1 _ Ho1)
    as Hoc.
  pose proof (do_call_lawful classes functions n
                {| serial := next_id s1;
                   thunk := {| cl_owner := t; cl_event := e; cl_arg := a |} |}
                (closed t (register t
                   {| cl_owner := t; cl_event := e; cl_arg := a |}
                   (opened t s1)))) as Hl.
  assert (∀ s',
            lawful (closed t (register t
                      {| cl_owner := t; cl_event := e; cl_arg := a |}
                      (opened t s1))) s' →
            ∃ o', tasks s' !! t = Some o' ∧ cls o' = cls o ∧
                  _running o' = false ∧ _exception o' = _exception (f o) ∧
                  _result o' = _result (f o) ∧
                  _succeeded o' = _succeeded (f o)) as Hkept.
  { intros s' [(_ & _ & _ & Hs) _].
    destruct (Hs _ _ Hoc) as (o' & Ho' & Hc' & Hfz).
    destruct (Hfz eq_refl) as (? & ? & ? & ?). exists o'. simpl in *.
    repeat split; try done; congruence. }
  split.
  - destruct (do_call _ _ _) as [s'|x s'| |] eqn:Hdc; rewrite Hev; try done.
    + split; [by apply Hkept|].
      destruct (event_outside_transaction classes functions n t e a s o s'
                  Hwf Ho Hr Hq Hev) as (s1' & Hb' & Hn & _).
      rewrite Hbody in Hb'. injection Hb' as <-.
      rewrite Hid, Hida in Hn. rewrite Hn.
      rewrite (subscribers_of_lookup _ _ _ _ Ho1). simpl. by rewrite Hfs.
    + by apply Hkept.
  - intros Hok Hpass Hn H1. exists s1. destruct n as [|m]; [lia|].
    rewrite Hev. unfold do_call, with_task. simpl cl_owner. simpl cl_event.
    rewrite Hoc. simpl _subscribers. rewrite Hfs.
    destruct (notify_passive classes functions m
                {| serial := next_id s1;
                   thunk := {| cl_owner := t; cl_event := e; cl_arg := a |} |}
                _ (closed t (register t
                     {| cl_owner := t; cl_event := e; cl_arg := a |}
                     (opened t s1))) Hpass) as (s' & -> & Hs').
    exists s'. split; [done|]. split; [done|]. intros p Hp.
    rewrite Hs'. by apply lookup_closed_register_opened_ne.
Qed.

End Lifecycle.

(** X6: [on_success(v)] on a running future outside a transaction, in
    a program whose classes keep the empty [_cleanup].  Whenever the
    call comes back, normally or with the exception of a subscriber,
    the future has stopped, has succeeded and holds [v];
    when it returns, all the subscribers present at the call have been
    called in order, although the future had already stopped.  It
    returns when the subscribers are passive. *)
Theorem on_success_records_and_notifies classes functions n t v s o :
  wf s → tasks s !! t = Some o → is_future (classes (cls o)) = true →
  _running o = true → _event_signal_queue o = None →
  match run classes functions (S n) (CallEvent t OnSuccess v) s with
  | Ok s' =>
      result_of classes t s' = Some (inl v) ∧
      succeeded classes t s' = Some (inl true) ∧
      running t s' = Some false ∧
      notified (next_id s) (log s') = subscribers_of t OnSuccess s
  | Raised _ s' =>
      result_of classes t s' = Some (inl v) ∧
      succeeded classes t s' = Some (inl true) ∧
      running t s' = Some false
  | Timeout | Dangling => True
  end ∧
  (refs_ok s → Forall (passive functions) (subscribers_of t OnSuccess s) →
   count_running s ≤ n → 1 ≤ n →
   ∃ s', run classes functions (S n) (CallEvent t OnSuccess v) s = Ok s').
Proof.
  intros Hwf Ho Hfut Hr Hq.
  rewrite (subscribers_of_lookup _ _ _ _ Ho).
  destruct (lifecycle_event classes functions n t OnSuccess v s o
              (set_success v) Hwf Ho Hr Hq Hfut) as [Hpart Htot].
  { by constructor. }
  { done. }
  { unfold _call_method, with_task. rewrite tasks_emit, Ho. done. }
  assert (∀ s',
            (∃ o', tasks s' !! t = Some o' ∧ cls o' = cls o ∧
                   _running o' = false ∧
                   _exception o' = _exception (set_success v o) ∧
                   _result o' = _result (set_success v o) ∧
                   _succeeded o' = _succeeded (set_success v o)) →
            result_of classes t s' = Some (inl v) ∧
            succeeded classes t s' = Some (inl true) ∧
            running t s' = Some false) as Hacc.
  { intros s' (o' & Ho' & Hc & Hr' & _ & Hres & Hsu).
    unfold result_of, succeeded, running. rewrite Ho'. simpl in *.
    by rewrite Hc, Hfut, Hr', Hres, Hsu. }
  split.
  - destruct (run classes functions (S n) (CallEvent t OnSuccess v) s)
      as [s'|x s'| |]; [|by apply Hacc|done..].
    destruct Hpart as [Hk Hn]. destruct (Hacc _ Hk) as (? & ? & ?). done.
  - intros Hok Hp Hn H1.
    destruct (Htot Hok Hp Hn H1) as (_ & s' & _ & Hs' & _). eauto.
Qed.

Lemma wf_awaited : wf Demo.awaited.
Proof. apply wf_closed_state; vm_compute; repeat constructor. Qed.

Lemma refs_ok_awaited : refs_ok Demo.awaited.
Proof.
  intros p c (o & Ho & Hc). destruct p as [|p]; [|done].
  injection Ho as <-. by apply elem_of_nil in Hc.
Qed.

Lemma on_success_records_and_notifies_witness :
  match run Demo.futures_only Demo.marking 2 (CallEvent 0 OnSuccess (VInt 42))
          Demo.awaited with
  | Ok s' =>
      result_of Demo.futures_only 0 s' = Some (inl (VInt 42)) ∧
      succeeded Demo.futures_only 0 s' = Some (inl true) ∧
      running 0 s' = Some false ∧
      notified (next_id Demo.awaited) (log s') =
        subscribers_of 0 OnSuccess Demo.awaited
  | Raised _ s' =>
      result_of Demo.futures_only 0 s' = Some (inl (VInt 42)) ∧
      succeeded Demo.futures_only 0 s' = Some (inl true) ∧
      running 0 s' = Some false
  | Timeout | Dangling => True
  end ∧
  ∃ s', run Demo.futures_only Demo.marking 2 (CallEvent 0 OnSuccess (VInt 42))
          Demo.awaited = Ok s'.
Proof.
  destruct (on_success_records_and_notifies Demo.futures_only Demo.marking 1
              0 (VInt 42) Demo.awaited _ wf_awaited eq_refl eq_refl eq_refl
              eq_refl) as [HA HB].
  split; [exact HA|]. apply HB.
  - apply refs_ok_awaited.
  - constructor; [|constructor]. exists 5. split; [done|].
    intros a. by exists [5].
  - unfold count_running. simpl. lia.
  - lia.
Defined.

(** X7: [on_failure(a)] on a running task with a subscriber, outside a
    transaction, in a program whose classes keep the empty [_cleanup].
    Whenever the call comes back the task has stopped and holds [a];
    [failed] is true unless [a] is [None], in which case
    [exception] raises.  When the call returns, all the subscribers
    present at the call have been called in order.  It returns when the
    subscribers are passive. *)
Theorem on_failure_records_and_notifies classes functions n t a s o :
  wf s → tasks s !! t = Some o → _running o = true →
  _event_signal_queue o = None → subscribers_of t OnFailure s ≠ [] →
  match run classes functions (S n) (CallEvent t OnFailure a) s with
  | Ok s' =>
      running t s' = Some false ∧
      failed t s' = Some (inl (bool_decide (a ≠ VNone))) ∧
      exception t s' =
        Some (if bool_decide (a ≠ VNone) then inl a else inr AssertionError) ∧
      notified (next_id s) (log s') = subscribers_of t OnFailure s
  | Raised _ s' =>
      running t s' = Some false ∧
      failed t s' = Some (inl (bool_decide (a ≠ VNone))) ∧
      exception t s' =
        Some (if bool_decide (a ≠ VNone) then inl a else inr AssertionError)
  | Timeout | Dangling => True
  end ∧
  (refs_ok s → Forall (passive functions) (subscribers_of t OnFailure s) →
   count_running s ≤ n → 1 ≤ n →
   ∃ s', run classes functions (S n) (CallEvent t OnFailure a) s = Ok s').
Proof.
  intros Hwf Ho Hr Hq. rewrite (subscribers_of_lookup _ _ _ _ Ho). intros Hs.
  destruct (lifecycle_event classes functions n t OnFailure a s o
              (set_exception a) Hwf Ho Hr Hq eq_refl) as [Hpart Htot].
  { by constructor. }
  { done. }
  { unfold _call_method, on_failure, with_task. rewrite tasks_emit, Ho.
    by rewrite bool_decide_eq_false_2. }
  assert (∀ s',
            (∃ o', tasks s' !! t = Some o' ∧ cls o' = cls o ∧
                   _running o' = false ∧
                   _exception o' = _exception (set_exception a o) ∧
                   _result o' = _result (set_exception a o) ∧
                   _succeeded o' = _succeeded (set_exception a o)) →
            running t s' = Some false ∧
            failed t s' = Some (inl (bool_decide (a ≠ VNone))) ∧
            exception t s' =
              Some (if bool_decide (a ≠ VNone) then inl a
                    else inr AssertionError)) as Hacc.
  { intros s' (o' & Ho' & _ & Hr' & Hx & _).
    unfold failed, exception, running. rewrite Ho'. simpl in *.
    by rewrite Hr', Hx. }
  split.
  - destruct (run classes functions (S n) (CallEvent t OnFailure a) s)
      as [s'|x s'| |]; [|by apply Hacc|done..].
    destruct Hpart as [Hk Hn]. destruct (Hacc _ Hk) as (? & ? & ?). done.
  - intros Hok Hp Hn H1.
    destruct (Htot Hok Hp Hn H1) as (_ & s' & _ & Hs' & _). eauto.
Qed.

Lemma wf_watched : wf Demo.watched.
Proof. apply wf_closed_state; vm_compute; repeat constructor. Qed.

Lemma on_failure_records_and_notifies_witness :
  match run Demo.tasks_only Demo.marking 3
          (CallEvent 0 OnFailure (VExc (PyException 7))) Demo.watched with
  | Ok s' =>
      running 0 s' = Some false ∧
      failed 0 s' = Some (inl (bool_decide (VExc (PyException 7) ≠ VNone))) ∧
      exception 0 s' =
        Some (if bool_decide (VExc (PyException 7) ≠ VNone)
              then inl (VExc (PyException 7)) else inr AssertionError) ∧
      notified (next_id Demo.watched) (log s') =
        subscribers_of 0 OnFailure Demo.watched
  | Raised _ s' =>
      running 0 s' = Some false ∧
      failed 0 s' = Some (inl (bool_decide (VExc (PyException 7) ≠ VNone))) ∧
      exception 0 s' =
        Some (if bool_decide (VExc (PyException 7) ≠ VNone)
              then inl (VExc (PyException 7)) else inr AssertionError)
  | Timeout | Dangling => True
  end ∧
  ∃ s', run Demo.tasks_only Demo.marking 3
          (CallEvent 0 OnFailure (VExc (PyException 7))) Demo.watched = Ok s'.
Proof.
  destruct (on_failure_records_and_notifies Demo.tasks_only Demo.marking 2
              0 (VExc (PyException 7)) Demo.watched _ wf_watched eq_refl
              eq_refl eq_refl ltac:(done)) as [HA HB].
  split; [exact HA|]. apply HB.
  - apply refs_ok_watched.
  - constructor; [|constructor]. exists 5. split; [done|].
    intros a. by exists [5].
  - unfold count_running. simpl. lia.
  - lia.
Defined.

(** ** Adoption with a failure handler of one's own *)

(** X8: [P] adopts [C] with a failure handler of its own, here a
    passive client function, in a program whose classes keep the empty
    [_cleanup]; [C] is running and in no transaction, its other failure
    subscribers are passive too, and [C] has not adopted [P], directly
    or through others.  Then the failure of [C] is handed to that
    function and not to [P.on_failure]: firing [C.on_failure(e)] returns
    with [C] failed with [e], all the failure subscribers of [C] called,
    the handler last, and [P] as it was, still holding [C] as adopted. *)
Theorem custom_failure_handler_spares_parent
    classes functions n P C f e s s1 oP oC :
  wf s → refs_ok s →
  tasks s !! P = Some oP → tasks s !! C = Some oC →
  _running oC = true → _event_signal_queue oC = None →
  Forall (passive functions) (subscribers_of C OnFailure s ++ [HFun f]) →
  _adopt_task classes P C (Some (HFun f)) s = Ok s1 →
  ¬ rtc (adopts s1) C P →
  count_running s ≤ n → 1 ≤ n →
  ∃ s', run classes functions (S n) (CallEvent C OnFailure e) s1 = Ok s' ∧
        failed_with C e s' ∧
        notified (next_id s) (log s') =
          subscribers_of C OnFailure s ++ [HFun f] ∧
        adopts s' P C ∧
        running P s' = running P s ∧ exception P s' = exception P s.
Proof.
  intros Hwf Hok HoP HoC HrC HqC. rewrite (subscribers_of_lookup _ _ _ _ HoC).
  intros Hpass Hadopt Hreach Hn H1.
  assert (P ≠ C) as Hne by (intros ->; apply Hreach, rtc_refl).
  unfold _adopt_task, with_task in Hadopt. rewrite HoP in Hadopt.
  unfold __iadd__, with_task in Hadopt.
  rewrite lookup_update_ne, HoC in Hadopt by done. simpl in Hadopt.
  injection Hadopt as <-.
  set (oP1 := set_adopted (_adopted_tasks oP ++ [C]) oP).
  set (oC1 := set_subscribers OnFailure
                (_subscribers oC OnFailure ++ [HFun f]) oC).
  assert (wf (update P (λ o, set_adopted (_adopted_tasks o ++ [C]) o) s))
    as Hwfp.
  { rewrite (update_const _ _ _ _ HoP). eapply wf_mut; [|done].
    eapply mut_task; [done|constructor|]. intros c Hc. simpl in Hc.
    apply elem_of_app in Hc as [Hc| ->%list_elem_of_singleton]; [by left|].
    right. by eapply lookup_lt_Some. }
  assert (wf (update C (λ o, set_subscribers OnFailure
                               (_subscribers o OnFailure ++ [HFun f]) o)
                (update P (λ o, set_adopted (_adopted_tasks o ++ [C]) o) s)))
    as Hwf1.
  { erewrite update_const; [|by rewrite lookup_update_ne, HoC].
    eapply wf_mut; [|done].
    eapply mut_task; [by rewrite lookup_update_ne, HoC|constructor|].
    intros c Hc. left. exact Hc. }
  set (s1 := update C _ (update P _ s)) in *.
  assert (tasks s1 !! C = Some oC1 ∧ tasks s1 !! P = Some oP1)
    as [HoC1 HoP1].
  { unfold s1.
    by rewrite lookup_update_eq, !lookup_update_ne, lookup_update_eq,
      HoC, HoP by done. }
  assert (count_running s1 = count_running s) as Hcount1.
  { unfold s1. by rewrite !count_running_update. }
  assert (next_id s1 = next_id s) as Hid1 by done.
  assert (refs_ok s1) as Hok1.
  { unfold s1. apply refs_ok_update; [done|].
    intros p c (o & Ho & Hc). simpl. rewrite length_alter.
    rewrite lookup_update in Ho.
    case_decide; [subst|by apply (Hok p); exists o].
    rewrite HoP in Ho. simplify_eq/=.
    apply elem_of_app in Hc as [Hc| ->%list_elem_of_singleton].
    - apply (Hok p). by exists oP.
    - by eapply lookup_lt_Some. }
  clearbody s1. clear Hwfp.
  assert (_subscribers oC1 OnFailure = _subscribers oC OnFailure ++ [HFun f])
    as Hsubs by done.
  destruct (lifecycle_event classes functions n C OnFailure e s1 oC1
              (set_exception e) Hwf1 HoC1 HrC HqC eq_refl) as [Hpart Htot].
  { constructor; [done|]. rewrite Hsubs. by destruct (_subscribers oC _). }
  { done. }
  { unfold _call_method, on_failure, with_task. rewrite tasks_emit, HoC1.
    rewrite bool_decide_eq_false_2; [done|].
    rewrite Hsubs. by destruct (_subscribers oC _). }
  destruct Htot as (s2 & s' & Hstop & Hrun & Hother); [done|by rewrite Hsubs|lia|done|].
  rewrite Hrun in Hpart.
  destruct Hpart as [(o' & Ho' & _ & Hr' & Hx' & _) Hnot].
  exists s'. split; [done|]. split; [by exists o'|].
  split; [by rewrite <- Hid1, Hnot, Hsubs|].
  pose proof (stop_partial classes functions n C
                (update C (set_exception e)
                   (emit (Body C OnFailure e) s1))) as Hp.
  rewrite Hstop in Hp. destruct Hp as (Hst & _).
  assert (tasks s' !! P = Some oP1) as HoP'.
  { rewrite Hother by done. rewrite (stops_unreached _ _ _ _ Hst).
    - by rewrite lookup_update_ne, tasks_emit.
    - intros Hr. apply Hreach. eapply rtc_subrel; [|exact Hr].
      apply adopts_ext. intros t. rewrite lookup_update, tasks_emit.
      case_decide; [subst|done]. by destruct (tasks s1 !! t). }
  split; [|split].
  - exists oP1. split; [done|]. simpl. apply elem_of_app. right. by left.
  - unfold running. by rewrite HoP', HoP.
  - unfold exception. by rewrite HoP', HoP.
Qed.

Lemma wf_two_tasks : wf Demo.two_tasks.
Proof. apply wf_closed_state; vm_compute; repeat constructor. Qed.

Lemma refs_ok_two_tasks : refs_ok Demo.two_tasks.
Proof.
  intros p c (o & Ho & Hc).
  destruct p as [|[|p]]; [| |done]; injection Ho as <-;
    by apply elem_of_nil in Hc.
Qed.

Lemma custom_failure_handler_spares_parent_witness :
  ∃ s', run Demo.tasks_only Demo.marking 3
          (CallEvent 1 OnFailure (VExc (PyException 7))) Demo.redirected
        = Ok s' ∧
        failed_with 1 (VExc (PyException 7)) s' ∧
        notified (next_id Demo.two_tasks) (log s') =
          subscribers_of 1 OnFailure Demo.two_tasks ++ [HFun 5] ∧
        adopts s' 0 1 ∧
        running 0 s' = running 0 Demo.two_tasks ∧
        exception 0 s' = exception 0 Demo.two_tasks.
Proof.
  apply (custom_failure_handler_spares_parent Demo.tasks_only Demo.marking 2
           0 1 5 (VExc (PyException 7)) Demo.two_tasks Demo.redirected _ _
           wf_two_tasks refs_ok_two_tasks eq_refl eq_refl eq_refl eq_refl).
  - constructor; [|constructor]. exists 5. split; [done|].
    intros a. by exists [5].
  - reflexivity.
  - intros [?|(y & (o & Ho & Hc) & _)]%rtc_inv; [done|].
    injection Ho as <-. by apply elem_of_nil in Hc.
  - unfold count_running. simpl. lia.
  - lia.
Defined.

(** X11: [on_failure(a)] fired on a running task with a subscriber
    while a transaction of the task is open, in a program whose classes
    keep the empty [_cleanup].  The check for a failure subscriber is
    made at once and the task stops at once, holding [a]; no subscriber
    is called by the call: the notification is put at the end of the
    queue of the transaction. *)
Theorem on_failure_inside_transaction classes functions n t a s o q :
  refs_ok s → tasks s !! t = Some o → _running o = true →
  _event_signal_queue o = Some q → subscribers_of t OnFailure s ≠ [] →
  count_running s ≤ n →
  ∃ s', run classes functions (S n) (CallEvent t OnFailure a) s = Ok s' ∧
        failed_with t a s' ∧
        queue_of t s' =
          Some (q ++ [{| serial := next_id s;
                         thunk := {| cl_owner := t; cl_event := OnFailure;
                                     cl_arg := a |} |}]) ∧
        added s s' =
          [Body t OnFailure a;
           Registered {| serial := next_id s;
                         thunk := {| cl_owner := t; cl_event := OnFailure;
                                     cl_arg := a |} |}].
Proof.
  intros Hok Ho Hr Hq. rewrite (subscribers_of_lookup _ _ _ _ Ho).
  intros Hs Hn.
  rewrite (event_inside_transaction classes functions n t OnFailure a s o q
             Ho Hq Hr eq_refl).
  unfold _call_method, on_failure, with_task. rewrite tasks_emit, Ho.
  rewrite bool_decide_eq_false_2 by done.
  set (sa := update t (set_exception a) (emit (Body t OnFailure a) s)).
  assert (tasks sa !! t = Some (set_exception a o)) as Hoa.
  { unfold sa. by rewrite lookup_update_eq, tasks_emit, Ho. }
  assert (refs_ok sa) as Hoka by (by apply refs_ok_update).
  assert (count_running sa ≤ n) as Hna.
  { unfold sa. by rewrite count_running_update. }
  assert (log sa = log s ++ [Body t OnFailure a] ∧ next_id sa = next_id s)
    as [Hloga Hida] by done.
  clearbody sa.
  destruct (stop_total classes functions n t sa _ Hoka Hoa Hr Hna)
    as [s1 Hs1].
  pose proof (stop_partial classes functions n t sa) as Hp.
  rewrite Hs1 in *. destruct Hp as ((Hlog & Hid & _ & Ht) & _ & Hr1).
  assert (tasks s1 !! t = Some (set_running false (set_exception a o)))
    as Ho1.
  { destruct (Ht _ _ Hoa) as [H|(_ & _ & H)]; [|done].
    apply running_Some in Hr1 as (o1 & Ho1 & Hr1).
    rewrite H in Ho1. simplify_eq/=. congruence. }
  eexists. split; [done|]. split; [|split].
  - eexists. rewrite lookup_register, decide_True, Ho1 by done. done.
  - rewrite queue_of_register, decide_True by done.
    rewrite (queue_of_lookup _ _ _ Ho1). simpl. rewrite Hq. simpl.
    by rewrite Hid, Hida.
  - apply added_app. simpl. rewrite Hlog, Hloga, Hid, Hida.
    by rewrite <- app_assoc.
Qed.

Lemma refs_ok_opened_watched : refs_ok (opened 0 Demo.watched).
Proof. apply refs_ok_update; [done|]. apply refs_ok_watched. Qed.

Lemma on_failure_inside_transaction_witness :
  ∃ s', run Demo.tasks_only Demo.marking 3
          (CallEvent 0 OnFailure (VExc (PyException 7)))
          (opened 0 Demo.watched) = Ok s' ∧
        failed_with 0 (VExc (PyException 7)) s' ∧
        queue_of 0 s' =
          Some ([] ++ [{| serial := next_id (opened 0 Demo.watched);
                          thunk := {| cl_owner := 0; cl_event := OnFailure;
                                      cl_arg := VExc (PyException 7) |} |}]) ∧
        added (opened 0 Demo.watched) s' =
          [Body 0 OnFailure (VExc (PyException 7));
           Registered {| serial := next_id (opened 0 Demo.watched);
                         thunk := {| cl_owner := 0; cl_event := OnFailure;
                                     cl_arg := VExc (PyException 7) |} |}].
Proof.
  apply (on_failure_inside_transaction Demo.tasks_only Demo.marking 2 0
           (VExc (PyException 7)) (opened 0 Demo.watched) _ []
           refs_ok_opened_watched eq_refl eq_refl eq_refl).
  - done.
  - unfold count_running. simpl. lia.
Defined.

(** ** Errors during the flush *)

Section FlushErrors.

Context (classes : nat → class_decl) (functions : nat → val → list cmd).

(** A transaction method called while its task has no transaction
    open. *)
Lemma run_transaction_outside n T m a s o body :
  tasks s !! T = Some o → _event_signal_queue o = None →
  transactions (classes (cls o)) m = Some body →
  run classes functions (S n) (CallTransaction T m a) s =
  match for_each (exec_cmd classes (run classes functions n)) (body T a)
          (opened T s) with
  | Ok s1 =>
      for_each (do_call (run classes functions n))
        (default [] (queue_of T s1)) (closed T s1)
  | Raised x s1 => Raised x (closed T s1)
  | r => r
  end.
Proof.
  intros Ho Hq Hbody.
  rewrite run_transaction_unfold. unfold Transaction_call, with_task.
  rewrite Ho, Hbody. unfold _transaction_context, with_task.
  by rewrite Ho, Hq.
Qed.

(** What its body leaves behind, however it ends: the closures of the
    events of the task fired meanwhile wait in the queue, and once the
    queue is taken away they wait nowhere. *)
Lemma transaction_body_done n T s o l :
  wf s → tasks s !! T = Some o → _event_signal_queue o = None →
  ensures (λ s1,
             queue_of T s1 = Some (registered T (added s s1)) ∧
             silent T (added s s1) ∧
             NoDup (serial <$> registered T (added s s1)) ∧
             ∀ c, c ∈ registered T (added s s1) →
                  cl_owner (thunk c) = T ∧ absent (serial c) (closed T s1))
    (for_each (exec_cmd classes (run classes functions n)) l (opened T s)).
Proof.
  intros Hwf Ho Hq.
  assert (queue_of T (opened T s) = Some []) as Hq0.
  { unfold opened. by rewrite queue_of_set_queue, decide_True, Ho. }
  assert (in_transaction T (opened T s)) as Hin.
  { split; [by apply wf_open|]. rewrite Hq0. eauto. }
  pose proof (exec_sound classes (in_transaction T) (deferring T)
                (deferring_logic T) (run classes functions n)
                (λ c s Hs, run_sound classes functions _ _
                             (deferring_logic T) n c s Hs)
                l (opened T s) Hin) as Hpost.
  eapply ensures_impl; [|exact Hpost].
  intros s1 [[Hwf1 _] [_ Haw]]. destruct (Haw [] Hq0) as [Hq1 Hsil].
  assert (added (opened T s) s1 = added s s1) as Hadd by done.
  rewrite Hadd in *. rewrite app_nil_l in Hq1.
  split; [done|]. split; [done|]. split.
  - destruct Hwf1 as (_ & H2 & _). by apply (H2 T).
  - intros c Hc. destruct Hwf1 as (H1 & _ & H3 & _).
    destruct (H1 _ _ _ Hq1 Hc) as [Hown Hk]. split; [done|]. split; [done|].
    intros t' q'. unfold closed. rewrite queue_of_set_queue.
    case_decide; [subst; by destruct (tasks s1 !! _)|].
    intros Hq' (c' & Hs & Hc')%list_elem_of_fmap.
    by pose proof (H3 _ _ _ _ _ _ Hq1 Hq' Hc Hc' Hs).
Qed.

(** A flush that raises does so in the pass of one closure; the
    closures behind it are not run. *)
Lemma flush_raises n q s x s' :
  NoDup (serial <$> q) → (∀ c, c ∈ q → absent (serial c) s) →
  for_each (do_call (run classes functions n)) q s = Raised x s' →
  ∃ q1 c q2 sc,
    q = q1 ++ c :: q2 ∧
    for_each (do_call (run classes functions n)) q1 s = Ok sc ∧
    do_call (run classes functions n) c sc = Raised x s' ∧
    ∀ c', c' ∈ q2 →
          absent (serial c') s' ∧ unnotified (serial c') s s'.
Proof.
  revert s. induction q as [|c q IH]; intros s Hnd Ha Hrun; [done|].
  rewrite fmap_cons in Hnd. apply NoDup_cons in Hnd as [Hc Hnd].
  cbn [for_each] in Hrun.
  assert (∀ c', c' ∈ q →
            ensures (λ s', absent (serial c') s' ∧
                           unnotified (serial c') s s')
              (do_call (run classes functions n) c s)) as Ho1.
  { intros c' Hc'. apply do_call_other; [|apply Ha; by right].
    intros Heq. apply Hc. rewrite Heq. by apply list_elem_of_fmap_2. }
  destruct (do_call (run classes functions n) c s) as [s1|x1 s1| |] eqn:Hdc;
    [| |done..].
  - destruct (IH s1 Hnd (λ c' Hc', proj1 (Ho1 c' Hc')) Hrun)
      as (q1 & c0 & q2 & sc & -> & Hq1 & Hc0 & Hrest).
    exists (c :: q1), c0, q2, sc. split; [done|].
    split; [by cbn [for_each]; rewrite Hdc|]. split; [done|].
    intros c' Hc'. destruct (Hrest c' Hc') as [? Hu]. split; [done|].
    assert (c' ∈ q1 ++ c0 :: q2) as Hin
      by (apply elem_of_app; right; by right).
    destruct (Ho1 c' Hin) as [_ Hu1]. unfold unnotified in *. congruence.
  - injection Hrun as -> ->. exists [], c, q, s.
    split; [done|]. split; [done|]. split; [done|]. apply Ho1.
Qed.

End FlushErrors.

Lemma unnotified_nothing_added k s s' :
  steady s s' → unnotified k s s' → notified k (added s s') = [].
Proof.
  intros Hst Hu. unfold unnotified in Hu.
  rewrite (steady_log _ _ Hst), notified_app in Hu.
  rewrite <- (app_nil_r (notified k (log s))) in Hu at 2.
  by apply app_inv_head in Hu.
Qed.

Lemma later_calls_leave_absent_closure classes functions k s n c :
  absent k s →
  ensures (λ s', notified k (added s s') = []) (run classes functions n c s).
Proof.
  intros Ha.
  pose proof (run_sound classes functions _ _ (absent_logic k) n c s Ha)
    as Hs.
  pose proof (run_lawful classes functions n c s) as Hl.
  destruct (run classes functions n c s) as [s'|x' s'| |]; [| |done..].
  - destruct Hs as [_ Hu]. destruct Hl as [Hst _].
    by apply unnotified_nothing_added.
  - destruct Hs as [_ Hu]. destruct Hl as [Hst _].
    by apply unnotified_nothing_added.
Qed.

(** X12: an error during the flush drops the notifications still
    queued.  When the body of a transaction method, called while its
    task has no transaction open, has returned and the call as a whole
    raises, the flush raised in the pass of one of the queued closures;
    for the closures behind it no subscriber has been called during the
    flush, and none will be by any later call, as they wait in no queue:
    the transaction is closed. *)
Theorem flush_error_drops_queued_notifications
    classes functions n T m a s o body s1 x s' :
  wf s → tasks s !! T = Some o → _event_signal_queue o = None →
  transactions (classes (cls o)) m = Some body →
  for_each (exec_cmd classes (run classes functions n)) (body T a)
    (opened T s) = Ok s1 →
  run classes functions (S n) (CallTransaction T m a) s = Raised x s' →
  ∃ q1 c q2 sc,
    registered T (added s s1) = q1 ++ c :: q2 ∧
    for_each (do_call (run classes functions n)) q1 (closed T s1) = Ok sc ∧
    do_call (run classes functions n) c sc = Raised x s' ∧
    queue_of T s' = None ∧
    ∀ c', c' ∈ q2 →
      notified (serial c') (added (closed T s1) s') = [] ∧
      ∀ n' c0,
        ensures (λ s'', notified (serial c') (added s' s'') = [])
          (run classes functions n' c0 s').
Proof.
  intros Hwf Ho Hq Hbody Hexec Hrun.
  pose proof (transaction_body_done classes functions n T s o (body T a)
                Hwf Ho Hq) as Hdone.
  rewrite (run_transaction_outside classes functions n T m a s o body
             Ho Hq Hbody) in Hrun.
  rewrite Hexec in *. destruct Hdone as (Hq1 & _ & Hnd & Habs).
  rewrite Hq1 in Hrun. cbn [from_option] in Hrun. unfold id in Hrun.
  destruct (flush_raises classes functions n _ _ _ _ Hnd
              (λ c Hc, proj2 (Habs c Hc)) Hrun)
    as (q1 & c & q2 & sc & Hsplit & Hfl & Hc & Hrest).
  exists q1, c, q2, sc. split; [done|]. split; [done|]. split; [done|].
  pose proof (flush_lawful classes functions n
                (registered T (added s s1)) (closed T s1)) as Hl.
  rewrite Hrun in Hl. destruct Hl as [Hst Hbal].
  split.
  - eapply balanced_closed; [done|]. unfold closed.
    rewrite queue_of_set_queue, decide_True by done.
    by destruct (tasks s1 !! T).
  - intros c' Hc'. destruct (Hrest c' Hc') as [Ha Hu].
    split; [by apply unnotified_nothing_added|].
    intros n' c0. by apply later_calls_leave_absent_closure.
Qed.

Lemma wf_flush_raising : wf Demo.flush_raising.
Proof. apply wf_closed_state; vm_compute; repeat constructor. Qed.

Lemma flush_error_drops_queued_notifications_witness :
  ∃ q1 c q2 sc,
    registered 0
      (added Demo.flush_raising
         (Demo.final
            (for_each (exec_cmd Demo.nested'_only
                         (run Demo.nested'_only Demo.raising 5))
               [Fire 0 (Declared 0) (VInt 1); Mark 202]
               (opened 0 Demo.flush_raising))))
      = q1 ++ c :: q2 ∧
    for_each (do_call (run Demo.nested'_only Demo.raising 5)) q1
      (closed 0
         (Demo.final
            (for_each (exec_cmd Demo.nested'_only
                         (run Demo.nested'_only Demo.raising 5))
               [Fire 0 (Declared 0) (VInt 1); Mark 202]
               (opened 0 Demo.flush_raising)))) = Ok sc ∧
    do_call (run Demo.nested'_only Demo.raising 5) c sc =
      Raised (EventHandlerException (HFun 0) (PyException 1))
        (Demo.final (run Demo.nested'_only Demo.raising 6
                       (CallTransaction 0 2 (VInt 1)) Demo.flush_raising)) ∧
    queue_of 0
      (Demo.final (run Demo.nested'_only Demo.raising 6
                     (CallTransaction 0 2 (VInt 1)) Demo.flush_raising))
      = None ∧
    ∀ c', c' ∈ q2 →
      notified (serial c')
        (added
           (closed 0
              (Demo.final
                 (for_each (exec_cmd Demo.nested'_only
                              (run Demo.nested'_only Demo.raising 5))
                    [Fire 0 (Declared 0) (VInt 1); Mark 202]
                    (opened 0 Demo.flush_raising))))
           (Demo.final (run Demo.nested'_only Demo.raising 6
                          (CallTransaction 0 2 (VInt 1))
                          Demo.flush_raising))) = [] ∧
      ∀ n' c0,
        ensures
          (λ s'', notified (serial c')
                    (added
                       (Demo.final (run Demo.nested'_only Demo.raising 6
                                      (CallTransaction 0 2 (VInt 1))
                                      Demo.flush_raising)) s'') = [])
          (run Demo.nested'_only Demo.raising n' c0
             (Demo.final (run Demo.nested'_only Demo.raising 6
                            (CallTransaction 0 2 (VInt 1))
                            Demo.flush_raising))).
Proof.
  eapply (flush_error_drops_queued_notifications Demo.nested'_only
            Demo.raising 5 0 2 (VInt 1) Demo.flush_raising _
            (λ self a, [Fire self (Declared 0) a; Mark 202]));
    [apply wf_flush_raising|vm_compute; reflexivity..].
Defined.

(** X13: no events are fired when an exception was thrown inside a
    transaction.  When the body of a transaction method, called while
    its task has no transaction open, raises, the call raises the same
    exception with the transaction closed; for no closure of an event of
    the task fired in the body has a subscriber been called, and none
    will be by any later call. *)
Theorem failed_transaction_drops_its_events
    classes functions n T m a s o body x s1 :
  wf s → tasks s !! T = Some o → _event_signal_queue o = None →
  transactions (classes (cls o)) m = Some body →
  for_each (exec_cmd classes (run classes functions n)) (body T a)
    (opened T s) = Raised x s1 →
  run classes functions (S n) (CallTransaction T m a) s
    = Raised x (closed T s1) ∧
  queue_of T (closed T s1) = None ∧
  ∀ c, c ∈ registered T (added s s1) →
    (∀ i, Notify c i ∉ added s (closed T s1)) ∧
    ∀ n' c0,
      ensures (λ s'', notified (serial c) (added (closed T s1) s'') = [])
        (run classes functions n' c0 (closed T s1)).
Proof.
  intros Hwf Ho Hq Hbody Hexec.
  pose proof (transaction_body_done classes functions n T s o (body T a)
                Hwf Ho Hq) as Hdone.
  rewrite (run_transaction_outside classes functions n T m a s o body
             Ho Hq Hbody).
  rewrite Hexec in *. destruct Hdone as (Hq1 & Hsil & _ & Habs).
  split; [done|]. split.
  - unfold closed. rewrite queue_of_set_queue, decide_True by done.
    by destruct (tasks s1 !! T).
  - intros c Hc. destruct (Habs c Hc) as [Hown Ha]. split.
    + intros i Hi. by apply (Hsil c i).
    + intros n' c0. by apply later_calls_leave_absent_closure.
Qed.

Lemma failed_transaction_drops_its_events_witness :
  run Demo.failing_only Demo.marking 4 (CallTransaction 0 0 (VInt 3))
    Demo.listening
    = Raised (PyException 3)
        (closed 0
           (Demo.final
              (for_each (exec_cmd Demo.failing_only
                           (run Demo.failing_only Demo.marking 3))
                 [Fire 0 (Declared 1) (VInt 3); Raise (PyException 3)]
                 (opened 0 Demo.listening)))) ∧
  queue_of 0
    (closed 0
       (Demo.final
          (for_each (exec_cmd Demo.failing_only
                       (run Demo.failing_only Demo.marking 3))
             [Fire 0 (Declared 1) (VInt 3); Raise (PyException 3)]
             (opened 0 Demo.listening)))) = None ∧
  ∀ c,
    c ∈ registered 0
          (added Demo.listening
             (Demo.final
                (for_each (exec_cmd Demo.failing_only
                             (run Demo.failing_only Demo.marking 3))
                   [Fire 0 (Declared 1) (VInt 3); Raise (PyException 3)]
                   (opened 0 Demo.listening)))) →
    (∀ i, Notify c i ∉
            added Demo.listening
              (closed 0
                 (Demo.final
                    (for_each (exec_cmd Demo.failing_only
                                 (run Demo.failing_only Demo.marking 3))
                       [Fire 0 (Declared 1) (VInt 3); Raise (PyException 3)]
                       (opened 0 Demo.listening))))) ∧
    ∀ n' c0,
      ensures
        (λ s'', notified (serial c)
                  (added
                     (closed 0
                        (Demo.final
                           (for_each (exec_cmd Demo.failing_only
                                        (run Demo.failing_only Demo.marking 3))
                              [Fire 0 (Declared 1) (VInt 3);
                               Raise (PyException 3)]
                              (opened 0 Demo.listening)))) s'') = [])
        (run Demo.failing_only Demo.marking n' c0
           (closed 0
              (Demo.final
                 (for_each (exec_cmd Demo.failing_only
                              (run Demo.failing_only Demo.marking 3))
                    [Fire 0 (Declared 1) (VInt 3); Raise (PyException 3)]
                    (opened 0 Demo.listening))))).
Proof.
  apply (failed_transaction_drops_its_events Demo.failing_only Demo.marking
           3 0 0 (VInt 3) Demo.listening _
           (λ self a, [Fire self (Declared 1) a; Raise (PyException 3)])
           (PyException 3) _ wf_listening eq_refl eq_refl eq_refl).
  vm_compute. reflexivity.
Defined.
